(** * Loan payment calculator (module03.ts)

    The TypeScript source computes two monthly loan payments with the
    JavaScript [number] type and returns presentation strings built with
    [Number.prototype.toFixed].  The development keeps that data model:

    - a [number] is an IEEE-754 binary64 value ([spec_float] with a 53 bit
      significand), and [+ - * /] are the correctly rounded operations of
      the standard library's executable specification;
    - [Math.pow] is implementation-approximated in ECMAScript
      (ECMA-262, Number::exponentiate), so it is a field of the [Engine]
      the program runs on;
    - [toFixed] follows the algorithm of ECMA-262 (21.1.3.3);
    - a call runs in a [world] (the console) and completes normally or
      throws. *)

From Stdlib Require Import ZArith QArith Qpower Qround Qabs String Ascii List Bool Lia Lqa.
From Stdlib Require Import Floats.SpecFloat.
Import ListNotations.

Local Open Scope Z_scope.

(** ** JavaScript numbers *)

Module Number.

Definition prec : Z := 53.
Definition emax : Z := 1024.

Definition number : Type := spec_float.

(** A numeric literal of the source ([1200], [1], [30000], ...). *)
Definition of_Z (z : Z) : number := binary_normalize prec emax z 0 false.

Definition add : number -> number -> number := SFadd prec emax.
Definition sub : number -> number -> number := SFsub prec emax.
Definition mul : number -> number -> number := SFmul prec emax.
Definition div : number -> number -> number := SFdiv prec emax.

Definition is_zero (x : number) : bool :=
  match x with S754_zero _ => true | _ => false end.

(** Finite in the sense of [Number.isFinite]: zeros included. *)
Definition is_finite (x : number) : bool :=
  match x with S754_zero _ | S754_finite _ _ _ => true | _ => false end.

(** A finite number above zero. *)
Definition is_positive (x : number) : bool :=
  match x with S754_finite false _ _ => true | _ => false end.

Definition is_negative (x : number) : bool :=
  match x with S754_finite s _ _ => s | _ => false end.

(** Normal numbers: a full 53 bit significand (no underflow). *)
Definition is_normal (x : number) : bool :=
  match x with
  | S754_finite _ m _ => Zpos (digits2_pos m) =? prec
  | _ => false
  end.

Definition leb : number -> number -> bool := SFleb.

(** [0 <= x] as JavaScript compares: both zeros, the positive numbers and
    [+Infinity]; not NaN. *)
Definition non_negative (x : number) : bool := leb (S754_zero false) x.

(** The mathematical value of a finite number, the real number of [x] in
    ECMA-262. *)
Definition to_Q (x : number) : Q :=
  match x with
  | S754_finite s m e =>
      (inject_Z (if s then Zneg m else Zpos m) * Qpower 2 e)%Q
  | _ => 0%Q
  end.

End Number.

Import Number.

Declare Scope num_scope.
Delimit Scope num_scope with num.

(** ** Arithmetic of the payment formulas

    The two formulas of the source are written once, over the operations
    they use.  They are run on binary64 numbers (what the program does) and
    read over the rationals (what the formulas mean without rounding). *)

Class Arith (N : Type) : Type := {
  lit : Z -> N;
  nadd : N -> N -> N;
  nsub : N -> N -> N;
  nmul : N -> N -> N;
  ndiv : N -> N -> N;
  npow : N -> N -> N
}.

Infix "+" := nadd : num_scope.
Infix "-" := nsub : num_scope.
Infix "*" := nmul : num_scope.
Infix "/" := ndiv : num_scope.

Section Formulas.
Context {N : Type} {A : Arith N}.
Local Open Scope num_scope.

(** module03.ts, lines 24-26: the local [payment] of
    [calculateInterestOnlyLoanPayment]. *)
Definition interestOnlyPaymentValue (principle interestRate : N) : N :=
  let interest := interestRate / lit 1200 in
  let payment := principle * interest in
  payment.

(** module03.ts, lines 38-40: the local [payment] of
    [calculateConventionalLoanPayment]. *)
Definition conventionalPaymentValue (principle interestRate months : N) : N :=
  let interest := interestRate / lit 1200 in
  let payment :=
    (principle * interest) / (lit 1 - npow (lit 1 / (lit 1 + interest)) months) in
  payment.

(** The divisor of line 40. *)
Definition conventionalDenominator (interestRate months : N) : N :=
  let interest := interestRate / lit 1200 in
  lit 1 - npow (lit 1 / (lit 1 + interest)) months.

End Formulas.

(** ** The engine: what ECMAScript leaves to the implementation *)

Class Engine : Type := {
  (** [Math.pow(base, exponent)]. *)
  Math_pow : number -> number -> number;
  (** [Number::toString], used by [toFixed] for magnitudes of 10^21 and more
      (exponent notation). *)
  Number_toString : number -> string
}.

#[export] Instance binary64 {E : Engine} : Arith number := {
  lit := of_Z;
  nadd := add;
  nsub := sub;
  nmul := mul;
  ndiv := div;
  npow := Math_pow
}.

(** Exact arithmetic; the exponent of a power is an integer there. *)
#[export] Instance exact : Arith Q := {
  lit := inject_Z;
  nadd := Qplus;
  nsub := Qminus;
  nmul := Qmult;
  ndiv := Qdiv;
  npow := fun b n => Qpower b (Qfloor n)
}.

(** ** Completions and the world *)

Variant exn : Type := RangeError.

Variant completion (A : Type) : Type :=
  | Normal (a : A)
  | Throw (e : exn).
Arguments Normal {A} a.
Arguments Throw {A} e.

Record world : Type := { console : list string }.

Definition JS (A : Type) : Type := world -> completion A * world.

Definition ret {A} (a : A) : JS A := fun w => (Normal a, w).

Definition bind {A B} (c : JS A) (k : A -> JS B) : JS B :=
  fun w =>
    match c w with
    | (Normal a, w') => k a w'
    | (Throw e, w') => (Throw e, w')
    end.

Definition lift {A} (c : completion A) : JS A := fun w => (c, w).

Notation "x <- c ;; k" := (bind c (fun x => k))
  (at level 61, c at next level, right associativity).

Definition console_log (s : string) : JS unit :=
  fun w => (Normal tt, {| console := (console w ++ [s])%list |}).

Definition empty_world : world := {| console := [] |}.

(** The value a computation completes with, and the world it leaves. *)
Definition result {A} (c : JS A) (w : world) : completion A := fst (c w).
Definition effect {A} (c : JS A) (w : world) : world := snd (c w).

(** ** Number.prototype.toFixed *)

Local Open Scope string_scope.
Local Open Scope Z_scope.

Definition digit_char (d : Z) : ascii := ascii_of_nat (48 + Z.to_nat d)%nat.

Fixpoint decimal_fuel (fuel : nat) (n : Z) (acc : string) : string :=
  match fuel with
  | O => acc
  | S k =>
      let acc' := String (digit_char (n mod 10)) acc in
      if n <? 10 then acc' else decimal_fuel k (n / 10) acc'
  end.

(** The digits of the decimal representation of [n >= 0], no leading
    zeroes, ["0"] for zero. *)
Definition decimal (n : Z) : string :=
  decimal_fuel (S (Z.to_nat (Z.log2 n))) n "".

Fixpoint zeros (k : nat) : string :=
  match k with O => "" | S k' => String "0" (zeros k') end.

(** Step 11.a: the integer [n] for which [n / 10^f - x] is closest to zero,
    the larger one on a tie, for [x = m * 2^e > 0]. *)
Definition nearest_scaled (m : positive) (e f : Z) : Z :=
  let num := Zpos m * 10 ^ f in
  match e with
  | Zneg p => (2 * num + 2 ^ Zpos p) / (2 * 2 ^ Zpos p)
  | _ => num * 2 ^ e
  end.

(** Step 10: [x >= 10^21] for [x = m * 2^e]. *)
Definition at_least_1e21 (m : positive) (e : Z) : bool :=
  match e with
  | Zneg p => 10 ^ 21 * 2 ^ Zpos p <=? Zpos m
  | _ => 10 ^ 21 <=? Zpos m * 2 ^ e
  end.

(** Steps 11.b-c: the digits of [n] with a point before the last [f]. *)
Definition fixed_digits (n : Z) (f : nat) : string :=
  let m := decimal n in
  match f with
  | O => m
  | _ =>
      let k := String.length m in
      let m := if (k <=? f)%nat then zeros (f + 1 - k) ++ m else m in
      let k := String.length m in
      substring 0 (k - f) m ++ "." ++ substring (k - f) f m
  end.

Definition toFixed {E : Engine} (x : number) (fractionDigits : Z) : completion string :=
  let f := fractionDigits in
  if (f <? 0) || (100 <? f) then Throw RangeError
  else
    match x with
    | S754_nan => Normal "NaN"
    | S754_infinity false => Normal "Infinity"
    | S754_infinity true => Normal "-Infinity"
    | S754_zero _ => Normal (fixed_digits 0 (Z.to_nat f))
    | S754_finite s m e =>
        let sign := if s then "-" else "" in
        if at_least_1e21 m e
        then Normal (sign ++ Number_toString (S754_finite false m e))
        else Normal (sign ++ fixed_digits (nearest_scaled m e f) (Z.to_nat f))
    end.

(** ** The program *)

Record Loan : Type := {
  principle : number;
  interest : number
}.

Record ConventionalLoan : Type := {
  loan :> Loan;
  months : number
}.

Section Program.
Context {E : Engine}.

Definition calculateInterestOnlyLoanPayment (l : Loan) : JS string :=
  let payment := interestOnlyPaymentValue (principle l) (interest l) in
  s <- lift (toFixed payment 2) ;;
  ret ("The interest only loan payment is " ++ s).

Definition calculateConventionalLoanPayment (l : ConventionalLoan) : JS string :=
  let payment := conventionalPaymentValue (principle l) (interest l) (months l) in
  s <- lift (toFixed payment 2) ;;
  ret ("The conventional loan payment is " ++ s).

(** Lines 44-55: the two sample calls and the two [console.log]s. *)
Definition interestOnlyPayment : JS string :=
  calculateInterestOnlyLoanPayment
    {| principle := of_Z 30000; interest := of_Z 5 |}.

Definition conventionalPayment : JS string :=
  calculateConventionalLoanPayment
    {| loan := {| principle := of_Z 30000; interest := of_Z 5 |};
       months := of_Z 180 |}.

Definition main : JS unit :=
  a <- interestOnlyPayment ;;
  b <- conventionalPayment ;;
  _ <- console_log a ;;
  console_log b.

End Program.

(** ** A sample engine

    [Math.pow] with the special cases of Number::exponentiate and, for an
    integral exponent, the correctly rounded power (a non-integral exponent
    of a finite base is outside what it provides: it answers NaN);
    [Number::toString] for the large integers [toFixed] hands to it.  Real
    engines may differ from it in the last bits of [Math.pow]; the theorems
    below state how far. *)

Module Sample.

(** The integer value of an integral number. *)
Definition integral (x : number) : option Z :=
  match x with
  | S754_zero _ => Some 0
  | S754_finite s m e =>
      let v :=
        match e with
        | Zneg p => if Zpos m mod 2 ^ Zpos p =? 0 then Some (Zpos m / 2 ^ Zpos p) else None
        | _ => Some (Zpos m * 2 ^ e)
        end in
      option_map (fun a => if s then - a else a) v
  | _ => None
  end.

(** [base ^ n] for a finite non-zero [base] and [n > 0], rounded once. *)
Definition power_pos (s : bool) (m : positive) (e : Z) (n : positive) : number :=
  binary_round prec emax (s && Z.odd (Zpos n)) (m ^ n)%positive (e * Zpos n).

Definition one : number := of_Z 1.

Definition pow (base exponent : number) : number :=
  match exponent, base with
  | S754_nan, _ => S754_nan
  | S754_zero _, _ => one
  | _, S754_nan => S754_nan
  | S754_finite _ _ _, S754_finite s m e =>
      match integral exponent with
      | Some (Zpos n) => power_pos s m e n
      | Some (Zneg n) =>
          div one (S754_finite (s && Z.odd (Zpos n)) (m ^ n)%positive (e * Zpos n))
      | _ => S754_nan
      end
  | S754_finite sn _ _, S754_zero s =>
      let odd := match integral exponent with Some k => Z.odd k | None => false end in
      if sn then S754_infinity (s && odd) else S754_zero (s && odd)
  | S754_finite sn _ _, S754_infinity s =>
      let odd := match integral exponent with Some k => Z.odd k | None => false end in
      if sn then S754_zero (s && odd) else S754_infinity (s && odd)
  | S754_infinity sn, S754_finite _ m e =>
      match SFcompare (S754_finite false m e) one with
      | Some Gt => if sn then S754_zero false else S754_infinity false
      | Some Lt => if sn then S754_infinity false else S754_zero false
      | _ => S754_nan
      end
  | S754_infinity sn, S754_zero _ =>
      if sn then S754_infinity false else S754_zero false
  | S754_infinity sn, S754_infinity _ =>
      if sn then S754_zero false else S754_infinity false
  end.

(** How many decimal digits a positive integer has. *)
Definition ndigits (x : Z) : Z := Z.of_nat (String.length (decimal x)).

(** The candidates [(k, n, s)] of Number::toString with [k] digits:
    [s * 10^(n-k)] rounds to [x]. *)
Definition candidates (x : Z) (k : Z) : list (Z * Z * Z) :=
  let xf := of_Z x in
  flat_map (fun n =>
    let scale := 10 ^ (n - k) in
    flat_map (fun s =>
      if (10 ^ (k - 1) <=? s) && (s <? 10 ^ k)
         && SFeqb (of_Z (s * scale)) xf
      then [(k, n, s)] else [])
      [x / scale; x / scale + 1])
    [ndigits x; ndigits x + 1].

Definition closest (x : Z) (c d : Z * Z * Z) : Z * Z * Z :=
  let v t := let '(k, n, s) := t in Z.abs (s * 10 ^ (n - k) - x) in
  if v d <? v c then d else c.

Fixpoint shortest (x : Z) (ks : list Z) : option (Z * Z * Z) :=
  match ks with
  | [] => None
  | k :: ks' =>
      match candidates x k with
      | [] => shortest x ks'
      | c :: cs => Some (fold_left (closest x) cs c)
      end
  end.

(** Exponent notation, for an integer of 10^21 or more. *)
Definition toString (x : number) : string :=
  match integral x with
  | Some v =>
      match shortest v (map Z.of_nat (seq 1 17)) with
      | Some (k, n, s) =>
          let d := decimal s in
          let mant :=
            if k =? 1 then d
            else substring 0 1 d ++ "." ++ substring 1 (Z.to_nat k - 1) d in
          mant ++ "e+" ++ decimal (n - 1)
      | None => ""
      end
  | None => ""
  end.

Definition engine : Engine := {|
  Math_pow := pow;
  Number_toString := toString
|}.

(** The payment formulas on the sample engine. *)
Notation arith := (binary64 (E := engine)).

End Sample.

(** ** The formulas of the specification

    The two computations of section 4.1 of the specification, in its own
    words, over the rationals. *)

(** monthlyRate = annualInterestRatePercent / 1200;
    payment = principal * monthlyRate. *)
Definition spec_computeInterestOnlyPayment (principal annualInterestRatePercent : Q) : Q :=
  (let monthlyRate := annualInterestRatePercent / 1200 in
   principal * monthlyRate)%Q.

(** monthlyRate = annualInterestRatePercent / 1200;
    payment = (principal * monthlyRate) / (1 - (1 + monthlyRate)^(-termMonths)). *)
Definition spec_computeAmortizedPayment
    (principal annualInterestRatePercent : Q) (termMonths : Z) : Q :=
  (let monthlyRate := annualInterestRatePercent / 1200 in
   (principal * monthlyRate) / (1 - (1 + monthlyRate) ^ (- termMonths)))%Q.

(** ** Rounding *)

(** Half a unit in the last place of a normal number, relative to it. *)
Definition unit_roundoff : Q := 1 # (2 ^ 53).

(** Two roundings in a row: [(1 + u)^2 - 1] for [u = 2^-53]. *)
Definition two_roundings : Q :=
  (1 # 4503599627370496) + (1 # 81129638414606681695789005144064).

(** [x] lies in the interval of width [P] that starts at [L], at the place
    the round bit [r] and the sticky bit [s] say. *)
Definition loc (L P : Q) (r s : bool) (x : Q) : Prop :=
  match r, s with
  | false, false => x == L
  | false, true => L < x /\ x < L + (1 # 2) * P
  | true, false => x == L + (1 # 2) * P
  | true, true => L + (1 # 2) * P < x /\ x < L + P
  end%Q.

(** [x], counted in units of the exponent the shifting started from, lies
    where the record says once [k] bits have been shifted out. *)
Definition located (k : Z) (mrs : shr_record) (x : Q) : Prop :=
  (0 <= shr_m mrs)%Z /\
  loc (inject_Z (shr_m mrs * 2 ^ k)) (inject_Z (2 ^ k)) (shr_r mrs) (shr_s mrs) x.

(** The number made of a rounded significand [m >= 0] at exponent [e]. *)
Definition rounded (sx : bool) (m e : Z) : number :=
  match m with
  | Z0 => S754_zero sx
  | Zpos p => if e <=? emax - prec then S754_finite sx p e else S754_infinity sx
  | Zneg _ => S754_nan
  end.

Definition has_sign (sx : bool) (c : number) : bool :=
  match c with
  | S754_nan => false
  | S754_zero s | S754_infinity s | S754_finite s _ _ => Bool.eqb s sx
  end.

(** ** Accuracy of Math.pow *)

(** [w] lies within [k] units in the last place of [c], in the binade
    of [c]. *)
Definition within_ulps (k : Z) (w c : number) : bool :=
  match w, c with
  | S754_finite sw mw ew, S754_finite sc mc ec =>
      Bool.eqb sw sc && (ew =? ec) && (Z.abs (Zpos mw - Zpos mc) <=? k)
  | _, _ => false
  end.

(** The base of the [Math.pow] call made for the sample conventional loan
    (30000 at 5 percent over 180 months). *)
Definition sample_base : number :=
  div (of_Z 1) (add (of_Z 1) (div (of_Z 5) (of_Z 1200))).

Definition pow_accurate_on_sample {E : Engine} : Prop :=
  within_ulps 1024 (Math_pow sample_base (of_Z 180))
                   (Sample.pow sample_base (of_Z 180)) = true.

(** The significand of the correctly rounded power of the sample call. *)
Definition sample_power_significand : Z := 8522668777315087.

(** The payment of the sample conventional loan when [Math.pow] returns
    the number of significand [m] in the binade of the exact power. *)
Definition sample_value (m : Z) : number :=
  div (mul (of_Z 30000) (div (of_Z 5) (of_Z 1200)))
      (sub (of_Z 1) (S754_finite false (Z.to_pos m) (-54))).

Definition sample_exact : Q := spec_computeAmortizedPayment 30000 5 180.
Definition sample_exact_approx : Q := 237238088022463343 # 1000000000000000.
Definition sample_tolerance : Q := 1 # 10000000000.

(** The rest of lines 40-41 once [Math.pow] has returned [w]. *)
Definition conventional_text {E : Engine} (principle interestRate w : number)
  : completion string :=
  let interest := div interestRate (of_Z 1200) in
  match toFixed (div (mul principle interest) (sub (of_Z 1) w)) 2 with
  | Normal s => Normal ("The conventional loan payment is " ++ s)
  | Throw e => Throw e
  end.

Definition sample_text {E : Engine} (m : Z) : completion string :=
  conventional_text (of_Z 30000) (of_Z 5) (S754_finite false (Z.to_pos m) (-54)).

Definition completion_is (expected : string) (c : completion string) : bool :=
  match c with Normal s => String.eqb s expected | Throw _ => false end.

(** ** Presentation *)

Definition is_digit (c : ascii) : bool :=
  (48 <=? nat_of_ascii c)%nat && (nat_of_ascii c <=? 57)%nat.

(** The text ends with a digit, a point and exactly two digits. *)
Definition has_two_decimals (s : string) : bool :=
  match rev (list_ascii_of_string s) with
  | d2 :: d1 :: p :: d0 :: _ =>
      is_digit d2 && is_digit d1 && Ascii.eqb p "." && is_digit d0
  | _ => false
  end.

(** The text of [n] hundredths, with its sign. *)
Definition two_decimal_text (negative : bool) (n : Z) : string :=
  (if negative then "-" else "") ++ decimal (n / 100) ++ "."
  ++ String (digit_char (n / 10 mod 10)) (String (digit_char (n mod 10)) "").

(** [n] is the number of hundredths nearest to [|x|], the larger one on a
    tie. *)
Definition nearest_hundredths (x : Q) (n : Z) : Prop :=
  (inject_Z n - (1 # 2) <= 100 * Qabs x /\ 100 * Qabs x < inject_Z n + (1 # 2))%Q.

(** What [toFixed(2)] writes for the number [x]. *)
Definition presentation {E : Engine} (x : number) (s : string) : Prop :=
  match x with
  | S754_nan => s = "NaN"
  | S754_infinity negative => s = if negative then "-Infinity" else "Infinity"
  | _ =>
      ((Qabs (to_Q x) < inject_Z (10 ^ 21))%Q ->
       exists n, 0 <= n /\ nearest_hundredths (to_Q x) n /\
                 s = two_decimal_text (is_negative x) n) /\
      ((inject_Z (10 ^ 21) <= Qabs (to_Q x))%Q ->
       s = (if is_negative x then "-" else "") ++ Number_toString (SFabs x))
  end.

(** ** Signs and conventions *)

(** A number above zero: a positive finite number or [+Infinity]. *)
Definition above_zero (x : number) : bool :=
  match x with
  | S754_finite false _ _ | S754_infinity false => true
  | _ => false
  end.

(** [Math.pow] returns 1 for an exponent of zero (Number::exponentiate,
    step 2). *)
Definition zero_exponent_gives_one {E : Engine} : Prop :=
  forall b z : number, is_zero z = true -> Math_pow b z = of_Z 1.

(** ** Rounding to nearest, ties to even *)

(** [X] lies in the interval of width [P] that starts at [A]; [up] tells
    which end is nearest to it, an end with an even significand on a
    tie. *)
Definition nearest (A P : Q) (even up : bool) (X : Q) : Prop :=
  (A <= X /\ X < A + P)%Q /\
  if up
  then (A + (1 # 2) * P <= X)%Q /\ ((X == A + (1 # 2) * P)%Q -> even = false)
  else (X <= A + (1 # 2) * P)%Q /\ ((X == A + (1 # 2) * P)%Q -> even = true).

Definition round_up (m : Z) (up : bool) : Z := if up then m + 1 else m.

(** Significand and exponent of a number of the format: a full
    significand, or the least exponent. *)
Definition canonical (m g : Z) : Prop :=
  0 <= m < 2 ^ prec /\ emin prec emax <= g /\
  (2 ^ (prec - 1) <= m \/ g = emin prec emax).

(** The value [X >= 0] has the number [m * 2^g] of the format just below
    it, or is equal to it, and rounds to it or, when [up], to the next
    one. *)
Definition rounds_to (X : Q) (m g : Z) (up : bool) : Prop :=
  canonical m g /\ nearest (inject_Z m * 2 ^ g) (2 ^ g) (Z.even m) up X.

(** A significand that reached [2^prec] is carried to the next exponent. *)
Definition carry (n g : Z) : Z * Z :=
  if n =? 2 ^ prec then (2 ^ (prec - 1), g + 1) else (n, g).

Definition carried (sx : bool) (n g : Z) : number :=
  rounded sx (fst (carry n g)) (snd (carry n g)).

(** A number of the binary64 format: every JavaScript number is one. *)
Definition valid (x : number) : bool := valid_binary prec emax x.

(** A positive finite number of the format. *)
Definition amount (x : number) : bool := is_positive x && valid x.

(** The largest annual rate, in percent, whose monthly rate is absorbed by
    [1 +]: 1200 * 2^-53 (about 1.33e-13). *)
Definition absorbed_rate : Q := 75 # 562949953421312.

(** * Properties *)

(** ** Binary rounding

    [binary_round_aux] shifts a significand to the precision of the
    format, keeping a round bit and a sticky bit, and rounds to nearest,
    ties to even.  The lemmas follow the exact value through the shifts. *)

Lemma pow2_Q_pos (k : Z) : 0 <= k -> (0 < inject_Z (2 ^ k))%Q.
Proof.
  intros Hk. change 0%Q with (inject_Z 0). rewrite <- Zlt_Qlt.
  apply Z.pow_pos_nonneg; lia.
Qed.

Lemma pow2_Q (k : Z) : 0 <= k -> (inject_Z (2 ^ k) == 2 ^ k)%Q.
Proof. intros Hk. now rewrite Zpower_Qpower. Qed.

Lemma pow2_Q_gt0 (e : Z) : (0 < 2 ^ e)%Q.
Proof. apply Qpower_0_lt. reflexivity. Qed.

Lemma loc_ext (L L' P P' : Q) (r s : bool) (x : Q) :
  (L == L')%Q -> (P == P')%Q -> loc L P r s x -> loc L' P' r s x.
Proof. unfold loc. intros HL HP. destruct r, s; lra. Qed.

Lemma loc_value (L P : Q) (r s : bool) (x x' : Q) :
  (x == x')%Q -> loc L P r s x -> loc L P r s x'.
Proof. unfold loc. intros Hx. destruct r, s; lra. Qed.

Lemma loc_even (L P : Q) (r s : bool) (x : Q) :
  (0 < P)%Q -> loc L P r s x -> loc L (2 * P) false (r || s) x.
Proof. unfold loc. intros HP. destruct r, s; cbn [orb]; lra. Qed.

Lemma loc_odd (L P : Q) (r s : bool) (x : Q) :
  (0 < P)%Q -> loc (L + P) P r s x -> loc L (2 * P) true (r || s) x.
Proof. unfold loc. intros HP. destruct r, s; cbn [orb]; lra. Qed.

Lemma loc_bounds (L P : Q) (r s : bool) (x : Q) :
  (0 < P)%Q -> loc L P r s x -> (L <= x /\ x < L + P)%Q.
Proof. unfold loc. intros HP. destruct r, s; lra. Qed.

(** One shift keeps the exact value located. *)
Lemma shr_1_located (k : Z) (mrs : shr_record) (x : Q) :
  0 <= k -> located k mrs x -> located (k + 1) (shr_1 mrs) x.
Proof.
  intros Hk [Hm Hx].
  pose proof (pow2_Q_pos k Hk) as HP.
  assert (HP' : (2 * inject_Z (2 ^ k) == inject_Z (2 ^ (k + 1)))%Q).
  { rewrite Z.pow_add_r, Z.pow_1_r by lia. rewrite inject_Z_mult. ring. }
  destruct mrs as [m r s]. cbn [shr_m shr_r shr_s] in *.
  unfold located, shr_1.
  destruct m as [| [p | p |] | p]; try lia; cbn [shr_m shr_r shr_s]; (split; [lia |]).
  - apply (loc_ext (inject_Z 0) _ (2 * inject_Z (2 ^ k))); [reflexivity | exact HP' |].
    apply loc_even; [exact HP |]. exact Hx.
  - apply (loc_ext (inject_Z (Zpos p * 2 ^ (k + 1))) _ (2 * inject_Z (2 ^ k)));
      [reflexivity | exact HP' |].
    apply loc_odd; [exact HP |].
    eapply loc_ext; [| reflexivity | exact Hx].
    rewrite <- inject_Z_plus. apply inject_Z_injective.
    rewrite Z.pow_add_r, Z.pow_1_r by lia. lia.
  - apply (loc_ext (inject_Z (Zpos p * 2 ^ (k + 1))) _ (2 * inject_Z (2 ^ k)));
      [reflexivity | exact HP' |].
    apply loc_even; [exact HP |].
    eapply loc_ext; [| reflexivity | exact Hx].
    apply inject_Z_injective.
    rewrite Z.pow_add_r, Z.pow_1_r by lia. lia.
  - apply (loc_ext (inject_Z 0) _ (2 * inject_Z (2 ^ k))); [reflexivity | exact HP' |].
    apply loc_odd; [exact HP |].
    eapply loc_ext; [| reflexivity | exact Hx].
    rewrite <- inject_Z_plus. apply inject_Z_injective. lia.
Qed.

Lemma digits2_pos_bounds (p : positive) :
  2 ^ (Zpos (digits2_pos p) - 1) <= Zpos p < 2 ^ Zpos (digits2_pos p).
Proof.
  induction p as [p IH | p IH |]; cbn [digits2_pos].
  - rewrite Pos2Z.inj_succ, Z.pow_succ_r by lia.
    replace (Z.succ (Zpos (digits2_pos p)) - 1) with (Z.succ (Zpos (digits2_pos p) - 1)) by lia.
    rewrite Z.pow_succ_r by lia. lia.
  - rewrite Pos2Z.inj_succ, Z.pow_succ_r by lia.
    replace (Z.succ (Zpos (digits2_pos p)) - 1) with (Z.succ (Zpos (digits2_pos p) - 1)) by lia.
    rewrite Z.pow_succ_r by lia. lia.
  - cbn. lia.
Qed.

Lemma Zdigits2_upper (m : Z) : 0 <= m -> m < 2 ^ Zdigits2 m.
Proof.
  destruct m as [| p | p]; intros Hm; cbn [Zdigits2]; [cbn; lia | | lia].
  apply digits2_pos_bounds.
Qed.

Lemma Zdigits2_le (m n : Z) : 0 <= n -> 0 <= m < 2 ^ n -> Zdigits2 m <= n.
Proof.
  intros Hn [Hm Hlt]. destruct m as [| p | p]; cbn [Zdigits2]; try lia.
  pose proof (digits2_pos_bounds p) as [Hlo _].
  assert (Hpow : 2 ^ (Zpos (digits2_pos p) - 1) < 2 ^ n) by lia.
  apply Z.pow_lt_mono_r_iff in Hpow; lia.
Qed.

Lemma iter_pos_invariant {A : Type} (f : A -> A) (P : Z -> A -> Prop) :
  (forall k a, 0 <= k -> P k a -> P (k + 1) (f a)) ->
  forall n k a, 0 <= k -> P k a -> P (k + Zpos n) (iter_pos f n a).
Proof.
  intros step. induction n as [n IH | n IH |]; intros k a Hk Ha; cbn [iter_pos].
  - replace (k + Zpos n~1) with (k + 1 + Zpos n + Zpos n) by lia.
    apply IH; [lia |]. apply IH; [lia |]. now apply step.
  - replace (k + Zpos n~0) with (k + Zpos n + Zpos n) by lia.
    apply IH; [lia |]. now apply IH.
  - now apply step.
Qed.

Lemma shr_located (mrs : shr_record) (e n : Z) (x : Q) :
  located 0 mrs x ->
  exists k, k = Z.max 0 n /\ snd (shr mrs e n) = e + k /\
            located k (fst (shr mrs e n)) x.
Proof.
  intros Hloc. exists (Z.max 0 n). split; [reflexivity |].
  destruct n as [| p | p]; cbn [shr fst snd].
  - split; [lia | exact Hloc].
  - split; [lia |]. replace (Z.max 0 (Zpos p)) with (0 + Zpos p) by lia.
    apply (iter_pos_invariant shr_1 (fun k a => located k a x)); [| lia | exact Hloc].
    intros k a Hk Ha. now apply shr_1_located.
  - split; [lia | exact Hloc].
Qed.

Lemma located_bounds (k : Z) (mrs : shr_record) (x : Q) :
  0 <= k -> located k mrs x ->
  (inject_Z (shr_m mrs * 2 ^ k) <= x /\ x < inject_Z ((shr_m mrs + 1) * 2 ^ k))%Q.
Proof.
  intros Hk [_ Hx]. apply loc_bounds in Hx; [| now apply pow2_Q_pos].
  replace ((shr_m mrs + 1) * 2 ^ k) with (shr_m mrs * 2 ^ k + 2 ^ k) by lia.
  rewrite inject_Z_plus. exact Hx.
Qed.

Lemma located_exact (m : Z) :
  0 <= m -> located 0 (shr_record_of_loc m loc_Exact) (inject_Z m).
Proof.
  intros Hm. split; [exact Hm |].
  cbn [shr_record_of_loc shr_m shr_r shr_s loc].
  now rewrite Z.pow_0_r, Z.mul_1_r.
Qed.

Lemma shr_record_of_loc_m (m : Z) (l : location) : shr_m (shr_record_of_loc m l) = m.
Proof. destruct l as [| []]; reflexivity. Qed.

(** Rounding to nearest moves the significand by at most half a unit. *)
Lemma round_nearest_even_close (k : Z) (mrs : shr_record) (x : Q) :
  0 <= k -> located k mrs x ->
  let m1 := round_nearest_even (shr_m mrs) (loc_of_shr_record mrs) in
  shr_m mrs <= m1 <= shr_m mrs + 1 /\
  (Qabs (inject_Z (m1 * 2 ^ k) - x) <= (1 # 2) * inject_Z (2 ^ k))%Q.
Proof.
  intros Hk [Hm Hx] m1. subst m1.
  pose proof (pow2_Q_pos k Hk) as HP.
  assert (Hup : (inject_Z ((shr_m mrs + 1) * 2 ^ k)
                 == inject_Z (shr_m mrs * 2 ^ k) + inject_Z (2 ^ k))%Q).
  { rewrite <- inject_Z_plus. apply inject_Z_injective. lia. }
  destruct mrs as [m r s]. cbn [shr_m shr_r shr_s] in *.
  unfold loc in Hx.
  destruct r, s; cbn [loc_of_shr_record round_nearest_even];
    try destruct (Z.even m);
    (split; [lia |]); apply Qabs_Qle_condition;
    try rewrite Hup;
    set (L := inject_Z (m * 2 ^ k)) in *; clearbody L;
    set (P := inject_Z (2 ^ k)) in *; clearbody P; lra.
Qed.

Lemma shr_no_shift (mrs : shr_record) (e n : Z) : n <= 0 -> shr mrs e n = (mrs, e).
Proof. destruct n; [reflexivity | lia | reflexivity]. Qed.

Lemma fexp_lower (z : Z) :
  z - prec <= fexp prec emax z /\ emin prec emax <= fexp prec emax z.
Proof. unfold fexp. lia. Qed.

Lemma fexp_short (d e : Z) :
  d <= prec -> emin prec emax <= e -> fexp prec emax (d + e) <= e.
Proof. unfold fexp. lia. Qed.

(** [binary_round_aux] keeps a significand within half a unit of the exact
    value [x], at an exponent raised by the [k] bits it dropped. *)
Lemma binary_round_aux_spec (sx : bool) (mx ex : Z) (lx : location) (x : Q) :
  0 <= mx ->
  located 0 (shr_record_of_loc mx lx) x ->
  exists m k, 0 <= m /\ 0 <= k /\
    (Qabs (inject_Z (m * 2 ^ k) - x) <= (1 # 2) * inject_Z (2 ^ k))%Q /\
    binary_round_aux prec emax sx mx ex lx = rounded sx m (ex + k).
Proof.
  intros Hmx Hloc.
  pose proof (shr_record_of_loc_m mx lx) as Hrec.
  unfold binary_round_aux, shr_fexp.
  set (n1 := fexp prec emax (Zdigits2 mx + ex) - ex).
  destruct (shr_located (shr_record_of_loc mx lx) ex n1 x Hloc)
    as (k1 & Hk1 & He' & Hloc1).
  destruct (shr (shr_record_of_loc mx lx) ex n1) as [mrs' e'].
  cbn [fst snd] in He', Hloc1.
  assert (Hk1pos : 0 <= k1) by lia.
  destruct (round_nearest_even_close k1 mrs' x Hk1pos Hloc1) as [Hm1 Hclose].
  set (m1 := round_nearest_even (shr_m mrs') (loc_of_shr_record mrs')) in *.
  pose proof (fexp_lower (Zdigits2 mx + ex)) as [Hfexp1 Hfexp2].
  assert (Hemin : emin prec emax <= e') by lia.
  assert (Hm'pos : 0 <= shr_m mrs') by apply Hloc1.
  assert (Hm' : shr_m mrs' < 2 ^ prec).
  { destruct (located_bounds k1 mrs' x Hk1pos Hloc1) as [Hlo _].
    destruct (located_bounds 0 _ x (Z.le_refl 0) Hloc) as [_ Hhi].
    rewrite Hrec in Hhi.
    assert (Hlt : (inject_Z (shr_m mrs' * 2 ^ k1) < inject_Z ((mx + 1) * 2 ^ 0))%Q)
      by (eapply Qle_lt_trans; eassumption).
    rewrite <- Zlt_Qlt in Hlt.
    pose proof (Zdigits2_upper mx Hmx) as Hd.
    assert (Hdn : 0 <= Zdigits2 mx) by (destruct mx; cbn; lia).
    assert (Hpow : 2 ^ Zdigits2 mx <= 2 ^ (prec + k1))
      by (apply Z.pow_le_mono_r; lia).
    rewrite Z.pow_add_r in Hpow by (unfold prec; lia).
    assert (0 < 2 ^ k1) by (apply Z.pow_pos_nonneg; lia).
    rewrite Z.pow_0_r in Hlt. nia. }
  assert (Hcases : m1 < 2 ^ prec \/ m1 = 2 ^ prec) by lia.
  destruct Hcases as [Hsmall | Hcarry].
  - assert (Hd1 : Zdigits2 m1 <= prec).
    { apply Zdigits2_le; [unfold prec; lia | lia]. }
    rewrite shr_no_shift by (pose proof (fexp_short _ e' Hd1 Hemin); lia).
    cbn [shr_m shr_record_of_loc].
    exists m1, k1. split; [lia |]. split; [lia |]. split; [exact Hclose |].
    subst e'. reflexivity.
  - rewrite Hcarry.
    assert (Hd : Zdigits2 (2 ^ prec) = prec + 1) by (vm_compute; reflexivity).
    replace (fexp prec emax (Zdigits2 (2 ^ prec) + e') - e') with 1
      by (rewrite Hd; unfold fexp; lia).
    cbn [shr shr_record_of_loc].
    change (shr_m (iter_pos shr_1 1 {| shr_m := 2 ^ prec; shr_r := false; shr_s := false |}))
      with (2 ^ (prec - 1)).
    exists (2 ^ (prec - 1)), (k1 + 1).
    split; [unfold prec; lia |]. split; [lia |]. split.
    + rewrite Hcarry in Hclose.
      assert (E : 2 ^ (prec - 1) * 2 ^ (k1 + 1) = 2 ^ prec * 2 ^ k1).
      { rewrite Z.pow_add_r by lia. unfold prec. lia. }
      rewrite E.
      apply (Qle_trans _ _ _ Hclose).
      assert (HP : (inject_Z (2 ^ (k1 + 1)) == 2 * inject_Z (2 ^ k1))%Q).
      { rewrite Z.pow_add_r, Z.pow_1_r by lia. rewrite inject_Z_mult. ring. }
      rewrite HP. pose proof (pow2_Q_pos k1 Hk1pos).
      set (P := inject_Z (2 ^ k1)) in *. clearbody P. lra.
    + subst e'. now rewrite Z.add_assoc.
Qed.

Lemma binary_round_aux_finite (sx : bool) (mx ex : Z) (lx : location) (x : Q)
      (s : bool) (m : positive) (e : Z) :
  0 <= mx ->
  located 0 (shr_record_of_loc mx lx) x ->
  binary_round_aux prec emax sx mx ex lx = S754_finite s m e ->
  s = sx /\
  exists k, 0 <= k /\ e = ex + k /\
    (Qabs (inject_Z (Zpos m * 2 ^ k) - x) <= (1 # 2) * inject_Z (2 ^ k))%Q.
Proof.
  intros Hmx Hloc Hc.
  destruct (binary_round_aux_spec sx mx ex lx x Hmx Hloc)
    as (m' & k & Hm' & Hk & Hclose & Heq).
  rewrite Heq in Hc. unfold rounded in Hc.
  destruct m' as [| p | p]; try discriminate.
  destruct (ex + k <=? emax - prec); try discriminate.
  injection Hc as <- <- <-.
  split; [reflexivity |]. exists k. repeat split; assumption.
Qed.

(** On a non-negative significand [binary_round_aux] never returns NaN
    and keeps the sign. *)
Lemma binary_round_aux_sign (sx : bool) (mx ex : Z) (lx : location) (x : Q) :
  0 <= mx ->
  located 0 (shr_record_of_loc mx lx) x ->
  has_sign sx (binary_round_aux prec emax sx mx ex lx) = true.
Proof.
  intros Hmx Hloc.
  destruct (binary_round_aux_spec sx mx ex lx x Hmx Hloc)
    as (m' & k & Hm' & Hk & _ & ->).
  unfold rounded. destruct m' as [| p | p]; [| | lia].
  - cbn. apply eqb_reflx.
  - destruct (ex + k <=? emax - prec); cbn; apply eqb_reflx.
Qed.

(** ** Multiplication and division *)

Lemma to_Q_positive (m : positive) (e : Z) :
  (to_Q (S754_finite false m e) == inject_Z (Zpos m) * 2 ^ e)%Q.
Proof. reflexivity. Qed.

Lemma positive_value (a : number) : is_positive a = true -> (0 < to_Q a)%Q.
Proof.
  destruct a as [| | | [] m e]; try discriminate. intros _.
  rewrite to_Q_positive.
  apply Qmult_lt_0_compat; [reflexivity | apply pow2_Q_gt0].
Qed.

Lemma shift_value (m k e : Z) :
  0 <= k -> (inject_Z (m * 2 ^ k) * 2 ^ e == inject_Z m * 2 ^ (e + k))%Q.
Proof.
  intros Hk. rewrite inject_Z_mult, pow2_Q by exact Hk.
  rewrite Qpower_plus by discriminate. ring.
Qed.

Lemma scaled_error (V X S u : Q) :
  (0 <= S)%Q -> (Qabs (V - X) <= u * V)%Q ->
  (Qabs (V * S - X * S) <= u * (V * S))%Q.
Proof.
  intros HS Hclose.
  assert (E : (V * S - X * S == (V - X) * S)%Q) by ring.
  rewrite E, Qabs_Qmult, (Qabs_pos S HS).
  assert (E' : (u * (V * S) == u * V * S)%Q) by ring.
  rewrite E'. apply Qmult_le_compat_r; assumption.
Qed.

(** Half a unit of the last place is at most [unit_roundoff] times a
    normal significand. *)
Lemma half_ulp_normal (m : positive) (k : Z) :
  0 <= k -> Zpos (digits2_pos m) = prec ->
  ((1 # 2) * inject_Z (2 ^ k) <= unit_roundoff * inject_Z (Zpos m * 2 ^ k))%Q.
Proof.
  intros Hk Hd.
  pose proof (digits2_pos_bounds m) as [Hlo _]. rewrite Hd in Hlo.
  change (2 ^ (prec - 1)) with (2 ^ 52) in Hlo.
  pose proof (pow2_Q_pos k Hk) as HP.
  rewrite inject_Z_mult.
  assert (Hm : (inject_Z (2 ^ 52) <= inject_Z (Zpos m))%Q) by (now rewrite <- Zle_Qle).
  assert (Hu : ((1 # 2) == unit_roundoff * inject_Z (2 ^ 52))%Q) by reflexivity.
  rewrite Hu.
  rewrite <- Qmult_assoc. apply Qmult_le_l; [reflexivity |].
  apply Qmult_le_compat_r; [exact Hm | now apply Qlt_le_weak].
Qed.

Lemma normal_digits (c : number) (s : bool) (m : positive) (e : Z) :
  c = S754_finite s m e -> is_normal c = true -> Zpos (digits2_pos m) = prec.
Proof. intros ->. cbn [is_normal]. apply Z.eqb_eq. Qed.

(** The product of two positive numbers, when normal, is within
    [unit_roundoff] of the exact product, relative to itself. *)
Lemma mul_rounding (a b : number) :
  is_positive a = true -> is_positive b = true ->
  is_normal (mul a b) = true ->
  (Qabs (to_Q (mul a b) - to_Q a * to_Q b) <= unit_roundoff * to_Q (mul a b))%Q.
Proof.
  destruct a as [| | | [] ma ea]; try discriminate.
  destruct b as [| | | [] mb eb]; try discriminate.
  intros _ _ Hnormal.
  destruct (mul _ _) as [| | | s m e] eqn:Hc; try discriminate.
  pose proof (normal_digits _ s m e eq_refl Hnormal) as Hd.
  unfold mul in Hc. cbn [SFmul xorb] in Hc.
  apply (binary_round_aux_finite _ _ _ _ (inject_Z (Zpos (ma * mb)))) in Hc;
    [| lia | apply located_exact; lia].
  destruct Hc as [-> (k & Hk & -> & Hclose)].
  rewrite !to_Q_positive.
  assert (EV : (inject_Z (Zpos m) * 2 ^ (ea + eb + k)
                == inject_Z (Zpos m * 2 ^ k) * 2 ^ (ea + eb))%Q).
  { now rewrite shift_value. }
  assert (EX : (inject_Z (Zpos ma) * 2 ^ ea * (inject_Z (Zpos mb) * 2 ^ eb)
                == inject_Z (Zpos (ma * mb)) * 2 ^ (ea + eb))%Q).
  { rewrite Pos2Z.inj_mul, inject_Z_mult, Qpower_plus by discriminate. ring. }
  rewrite EV, EX.
  apply scaled_error; [apply Qlt_le_weak, pow2_Q_gt0 |].
  eapply Qle_trans; [exact Hclose | now apply half_ulp_normal].
Qed.

(** The quotient and the location computed by a Euclidean division place
    the exact quotient. *)
Lemma new_location_located (q r d : Z) :
  0 <= q -> 0 <= r < d ->
  located 0 (shr_record_of_loc q (new_location d r))
          (inject_Z (d * q + r) / inject_Z d).
Proof.
  intros Hq Hr.
  assert (HD : (0 < inject_Z d)%Q) by (change 0%Q with (inject_Z 0); rewrite <- Zlt_Qlt; lia).
  assert (HR : (0 <= inject_Z r)%Q) by (change 0%Q with (inject_Z 0); rewrite <- Zle_Qle; lia).
  assert (Hx : (inject_Z (d * q + r) / inject_Z d == inject_Z q + inject_Z r / inject_Z d)%Q).
  { rewrite inject_Z_plus, inject_Z_mult. field. lra. }
  split; [now rewrite shr_record_of_loc_m |].
  rewrite shr_record_of_loc_m, Z.pow_0_r, Z.mul_1_r.
  change (inject_Z 1) with 1%Q.
  apply (loc_value _ _ _ _ (inject_Z q + inject_Z r / inject_Z d));
    [now symmetry |]. clear Hx.
  assert (Hlt1 : (inject_Z r / inject_Z d < 1)%Q).
  { apply Qlt_shift_div_r; [exact HD |]. rewrite Qmult_1_l, <- Zlt_Qlt. lia. }
  assert (Hhalf : forall c, (2 * r ?= d) = c ->
            match c with
            | Lt => (inject_Z r / inject_Z d < 1 # 2)%Q
            | Eq => (inject_Z r / inject_Z d == 1 # 2)%Q
            | Gt => ((1 # 2) < inject_Z r / inject_Z d)%Q
            end).
  { intros c Hc. destruct c.
    - apply Z.compare_eq_iff in Hc.
      assert (E : (inject_Z d == 2 * inject_Z r)%Q).
      { rewrite <- Hc, inject_Z_mult. reflexivity. }
      rewrite E. field. rewrite E in HD. lra.
    - rewrite Z.compare_lt_iff in Hc.
      apply Qlt_shift_div_r; [exact HD |].
      assert (E : (2 * inject_Z r < inject_Z d)%Q).
      { change 2%Q with (inject_Z 2). rewrite <- inject_Z_mult, <- Zlt_Qlt. exact Hc. }
      lra.
    - rewrite Z.compare_gt_iff in Hc.
      apply Qlt_shift_div_l; [exact HD |].
      assert (E : (inject_Z d < 2 * inject_Z r)%Q).
      { change 2%Q with (inject_Z 2). rewrite <- inject_Z_mult, <- Zlt_Qlt. exact Hc. }
      lra. }
  assert (Hpos : r <> 0 -> (0 < inject_Z r / inject_Z d)%Q).
  { intros Hr0. apply Qlt_shift_div_l; [exact HD |].
    rewrite Qmult_0_l. change 0%Q with (inject_Z 0). rewrite <- Zlt_Qlt. lia. }
  assert (Hzero : r = 0 -> (inject_Z r / inject_Z d == 0)%Q).
  { intros ->. unfold Qdiv. change (inject_Z 0) with 0%Q. ring. }
  assert (Hodd : Z.even d = false -> 2 * r <> d).
  { intros Hev E. rewrite <- E, Z.even_mul in Hev. discriminate. }
  unfold new_location.
  destruct (Z.even d) eqn:Hev;
    [unfold new_location_even | unfold new_location_odd];
    (destruct (Z.eqb_spec r 0) as [Hr0 | Hr0];
     [specialize (Hzero Hr0); cbn [shr_record_of_loc shr_r shr_s loc];
      rewrite Hzero; ring |]);
    specialize (Hpos Hr0); specialize (Hhalf _ eq_refl).
  - destruct (2 * r ?= d); cbn [shr_record_of_loc shr_r shr_s loc];
      set (rho := (inject_Z r / inject_Z d)%Q) in *; clearbody rho;
      set (Q' := inject_Z q) in *; clearbody Q'; lra.
  - specialize (Hodd eq_refl).
    destruct (2 * r + 1 ?= d) eqn:Hc1;
      [apply Z.compare_eq_iff in Hc1 | rewrite Z.compare_lt_iff in Hc1
       | rewrite Z.compare_gt_iff in Hc1];
      destruct (2 * r ?= d) eqn:Hc2;
      try (apply Z.compare_eq_iff in Hc2); try (rewrite Z.compare_lt_iff in Hc2);
      try (rewrite Z.compare_gt_iff in Hc2); try lia;
      cbn [shr_record_of_loc shr_r shr_s loc];
      set (rho := (inject_Z r / inject_Z d)%Q) in *; clearbody rho;
      set (Q' := inject_Z q) in *; clearbody Q'; lra.
Qed.

Lemma div_core_located (m1 m2 : positive) (e1 e2 : Z) :
  exists q e' l,
    SFdiv_core_binary prec emax (Zpos m1) e1 (Zpos m2) e2 = (q, e', l) /\
    0 <= q /\ e' <= e1 - e2 /\
    located 0 (shr_record_of_loc q l)
            (inject_Z (Zpos m1 * 2 ^ (e1 - e2 - e')) / inject_Z (Zpos m2)).
Proof.
  unfold SFdiv_core_binary.
  set (e' := Z.min _ (e1 - e2)).
  assert (He' : e' <= e1 - e2) by (subst e'; apply Z.le_min_r).
  set (s := e1 - e2 - e').
  assert (Hs : 0 <= s) by (subst s; lia).
  assert (Hm' : match s with
                | 0 => Zpos m1
                | Zpos _ => Z.shiftl (Zpos m1) s
                | Zneg _ => 0
                end = Zpos m1 * 2 ^ s).
  { destruct s as [| p | p] eqn:Es; [lia | | lia].
    now rewrite Z.shiftl_mul_pow2 by lia. }
  rewrite Hm'.
  assert (Hpow : 0 < 2 ^ s) by (apply Z.pow_pos_nonneg; lia).
  pose proof (Z_div_mod (Zpos m1 * 2 ^ s) (Zpos m2) ltac:(lia)) as Hdiv.
  destruct (Z.div_eucl (Zpos m1 * 2 ^ s) (Zpos m2)) as [q r].
  destruct Hdiv as [Heq Hr].
  assert (Hq : 0 <= q) by nia.
  exists q, e', (new_location (Zpos m2) r).
  split; [reflexivity |]. split; [exact Hq |]. split; [exact He' |].
  change (e1 - e2 - e') with s.
  rewrite Heq. now apply new_location_located.
Qed.

(** The quotient of two positive numbers, when normal, is within
    [unit_roundoff] of the exact quotient, relative to itself. *)
Lemma div_rounding (a b : number) :
  is_positive a = true -> is_positive b = true ->
  is_normal (div a b) = true ->
  (Qabs (to_Q (div a b) - to_Q a / to_Q b) <= unit_roundoff * to_Q (div a b))%Q.
Proof.
  destruct a as [| | | [] ma ea]; try discriminate.
  destruct b as [| | | [] mb eb]; try discriminate.
  intros _ _ Hnormal.
  destruct (div _ _) as [| | | s m e] eqn:Hc; try discriminate.
  pose proof (normal_digits _ s m e eq_refl Hnormal) as Hd.
  unfold div in Hc. cbn [SFdiv xorb] in Hc.
  destruct (div_core_located ma mb ea eb) as (q & e' & l & Hcore & Hq & He' & Hloc).
  rewrite Hcore in Hc.
  apply (binary_round_aux_finite _ _ _ _ _ _ _ _ Hq Hloc) in Hc.
  destruct Hc as [-> (k & Hk & -> & Hclose)].
  rewrite !to_Q_positive.
  assert (EV : (inject_Z (Zpos m) * 2 ^ (e' + k)
                == inject_Z (Zpos m * 2 ^ k) * 2 ^ e')%Q).
  { now rewrite shift_value. }
  assert (EX : (inject_Z (Zpos ma) * 2 ^ ea / (inject_Z (Zpos mb) * 2 ^ eb)
                == inject_Z (Zpos ma * 2 ^ (ea - eb - e')) / inject_Z (Zpos mb) * 2 ^ e')%Q).
  { rewrite inject_Z_mult, pow2_Q by lia.
    replace ea with ((ea - eb - e') + e' + eb) at 1 by lia.
    rewrite !Qpower_plus by discriminate.
    pose proof (pow2_Q_gt0 eb).
    assert (Hmb : (0 < inject_Z (Zpos mb))%Q) by reflexivity.
    field. split; lra. }
  rewrite EV, EX.
  apply scaled_error; [apply Qlt_le_weak, pow2_Q_gt0 |].
  eapply Qle_trans; [exact Hclose | now apply half_ulp_normal].
Qed.

Lemma div_positive (a b : number) :
  is_positive a = true -> is_positive b = true ->
  is_normal (div a b) = true -> is_positive (div a b) = true.
Proof.
  destruct a as [| | | [] ma ea]; try discriminate.
  destruct b as [| | | [] mb eb]; try discriminate.
  intros _ _ Hn.
  destruct (div _ _) as [| | | s m e] eqn:Hc; try discriminate.
  unfold div in Hc. cbn [SFdiv xorb] in Hc.
  destruct (div_core_located ma mb ea eb) as (q & e' & l & Hcore & Hq & He' & Hloc).
  rewrite Hcore in Hc.
  apply (binary_round_aux_finite _ _ _ _ _ _ _ _ Hq Hloc) in Hc.
  destruct Hc as [-> _]. reflexivity.
Qed.

Lemma to_Q_1200 : (to_Q (of_Z 1200) == 1200)%Q.
Proof. vm_compute. reflexivity. Qed.

(** *** Signs *)

Lemma has_sign_non_negative (c : number) :
  has_sign false c = true -> non_negative c = true.
Proof. destruct c as [[] | [] | | [] m e]; try discriminate; reflexivity. Qed.

Lemma mul_non_negative (a b : number) :
  is_positive a = true -> non_negative b = true -> non_negative (mul a b) = true.
Proof.
  destruct a as [| | | [] ma ea]; try discriminate. intros _.
  destruct b as [sb | [] | | [] mb eb]; try discriminate; intros _.
  - destruct sb; reflexivity.
  - reflexivity.
  - apply has_sign_non_negative. unfold mul. cbn [SFmul xorb].
    apply (binary_round_aux_sign _ _ _ _ (inject_Z (Zpos (ma * mb)))); [lia |].
    apply located_exact. lia.
Qed.

Lemma div_non_negative (a b : number) :
  non_negative a = true -> is_positive b = true -> non_negative (div a b) = true.
Proof.
  intros Ha Hb.
  destruct b as [| | | [] mb eb]; try discriminate.
  destruct a as [sa | [] | | [] ma ea]; try discriminate.
  - destruct sa; reflexivity.
  - reflexivity.
  - apply has_sign_non_negative. unfold div. cbn [SFdiv xorb].
    destruct (div_core_located ma mb ea eb) as (q & e' & l & Hcore & Hq & _ & Hloc).
    rewrite Hcore.
    now apply (binary_round_aux_sign _ _ _ _ _ Hq Hloc).
Qed.

(** ** Strings and decimal digits *)

Lemma append_assoc (a b c : string) : (a ++ b) ++ c = a ++ (b ++ c).
Proof. induction a as [| ch a IH]; cbn; [reflexivity | now rewrite IH]. Qed.

Lemma length_append (a b : string) :
  String.length (a ++ b) = (String.length a + String.length b)%nat.
Proof. induction a as [| ch a IH]; cbn; [reflexivity | now rewrite IH]. Qed.

Lemma substring_all (a : string) : substring 0 (String.length a) a = a.
Proof. induction a as [| ch a IH]; cbn; [reflexivity | now rewrite IH]. Qed.

Lemma substring_head (a b : string) : substring 0 (String.length a) (a ++ b) = a.
Proof.
  induction a as [| ch a IH]; cbn; [destruct b; reflexivity | now rewrite IH].
Qed.

Lemma substring_tail (a b : string) :
  substring (String.length a) (String.length b) (a ++ b) = b.
Proof.
  induction a as [| ch a IH]; cbn; [apply substring_all | exact IH].
Qed.

Lemma list_ascii_of_append (a b : string) :
  list_ascii_of_string (a ++ b) = (list_ascii_of_string a ++ list_ascii_of_string b)%list.
Proof. induction a as [| ch a IH]; cbn; [reflexivity | now rewrite IH]. Qed.

Lemma is_digit_digit_char (d : Z) : 0 <= d < 10 -> is_digit (digit_char d) = true.
Proof.
  intros Hd. unfold is_digit, digit_char.
  rewrite nat_ascii_embedding by lia.
  apply andb_true_iff. split; [apply Nat.leb_le | apply Nat.leb_le]; lia.
Qed.

Lemma decimal_fuel_acc (k : nat) (n : Z) (acc : string) :
  decimal_fuel k n acc = decimal_fuel k n "" ++ acc.
Proof.
  revert n acc. induction k as [| k IH]; intros n acc; cbn [decimal_fuel].
  - reflexivity.
  - destruct (n <? 10); [reflexivity |].
    rewrite IH, (IH _ (String _ "")), append_assoc. reflexivity.
Qed.

(** Any fuel that covers the digits gives the same text. *)
Lemma decimal_fuel_enough (k k' : nat) (n : Z) (acc : string) :
  0 < n -> n < 10 ^ Z.of_nat k -> n < 10 ^ Z.of_nat k' ->
  decimal_fuel k n acc = decimal_fuel k' n acc.
Proof.
  revert k' n acc. induction k as [| k IH]; intros k' n acc Hn Hk Hk'.
  - cbn in Hk. lia.
  - destruct k' as [| k']; [cbn in Hk'; lia |].
    cbn [decimal_fuel]. destruct (Z.ltb_spec n 10) as [Hlt | Hge]; [reflexivity |].
    rewrite Nat2Z.inj_succ, Z.pow_succ_r in Hk, Hk' by lia.
    apply IH.
    + apply Z.div_str_pos. lia.
    + apply Z.div_lt_upper_bound; lia.
    + apply Z.div_lt_upper_bound; lia.
Qed.

Lemma decimal_fuel_bound (n : Z) : 0 < n -> n < 10 ^ Z.of_nat (S (Z.to_nat (Z.log2 n))).
Proof.
  intros Hn. pose proof (Z.log2_spec n Hn) as [_ Hhi].
  pose proof (Z.log2_nonneg n) as Hlog.
  rewrite Nat2Z.inj_succ, Z2Nat.id by exact Hlog.
  eapply Z.lt_le_trans; [exact Hhi |].
  apply Z.pow_le_mono_l. lia.
Qed.

Lemma decimal_small (n : Z) :
  0 <= n < 10 -> decimal n = String (digit_char n) "".
Proof.
  intros Hn. unfold decimal. cbn [decimal_fuel].
  destruct (Z.ltb_spec n 10); [| lia]. now rewrite Z.mod_small.
Qed.

Lemma decimal_step (n : Z) :
  10 <= n -> decimal n = decimal (n / 10) ++ String (digit_char (n mod 10)) "".
Proof.
  intros Hn. unfold decimal at 1. cbn [decimal_fuel].
  destruct (Z.ltb_spec n 10); [lia |].
  rewrite decimal_fuel_acc. f_equal.
  assert (Hq : 0 < n / 10) by (apply Z.div_str_pos; lia).
  apply decimal_fuel_enough; [exact Hq | | now apply decimal_fuel_bound].
  pose proof (decimal_fuel_bound n ltac:(lia)) as Hb.
  rewrite Nat2Z.inj_succ, Z.pow_succ_r in Hb by lia.
  apply Z.div_lt_upper_bound; lia.
Qed.

Lemma decimal_last (n : Z) :
  0 <= n -> exists h, decimal n = h ++ String (digit_char (n mod 10)) "".
Proof.
  intros Hn. destruct (Z.lt_ge_cases n 10) as [Hlt | Hge].
  - exists "". rewrite decimal_small by lia. now rewrite Z.mod_small by lia.
  - exists (decimal (n / 10)). now apply decimal_step.
Qed.

(** Steps 11.b-c for two fraction digits: the integer part, a point, the
    tenths and the hundredths. *)
Lemma fixed_digits_2 (n : Z) :
  0 <= n ->
  fixed_digits n 2 = decimal (n / 100) ++ "."
    ++ String (digit_char (n / 10 mod 10)) (String (digit_char (n mod 10)) "").
Proof.
  intros Hn. unfold fixed_digits.
  destruct (Z.lt_ge_cases n 10) as [Hlt10 | Hge10].
  - rewrite (decimal_small n) by lia.
    rewrite Z.div_small by lia. rewrite (Z.div_small n 10) by lia.
    rewrite (Z.mod_small n 10) by lia. reflexivity.
  - rewrite (decimal_step n Hge10).
    destruct (Z.lt_ge_cases n 100) as [Hlt100 | Hge100].
    + rewrite (decimal_small (n / 10))
        by (split; [apply Z.div_pos; lia | apply Z.div_lt_upper_bound; lia]).
      rewrite (Z.div_small n 100) by lia.
      rewrite (Z.mod_small (n / 10) 10)
        by (split; [apply Z.div_pos; lia | apply Z.div_lt_upper_bound; lia]).
      reflexivity.
    + assert (Hq : 10 <= n / 10) by (apply Z.div_le_lower_bound; lia).
      rewrite (decimal_step (n / 10) Hq).
      rewrite Z.div_div by lia. change (10 * 10) with 100.
      set (a := decimal (n / 100)).
      set (d1 := digit_char (n / 10 mod 10)). set (d0 := digit_char (n mod 10)).
      rewrite append_assoc. cbn [append].
      assert (Hlen : String.length (a ++ String d1 (String d0 "")) = (String.length a + 2)%nat)
        by (rewrite length_append; reflexivity).
      rewrite Hlen.
      destruct (Nat.leb_spec (String.length a + 2) 2) as [Hle | Hgt].
      * assert (Ha : String.length a = 0%nat) by lia.
        destruct (decimal_last (n / 100)) as [h Hh]; [apply Z.div_pos; lia |].
        fold a in Hh. rewrite Hh, length_append in Ha. cbn in Ha. lia.
      * rewrite Hlen.
        replace (String.length a + 2 - 2)%nat with (String.length a) by lia.
        rewrite substring_head.
        change 2%nat with (String.length (String d1 (String d0 ""))).
        rewrite substring_tail. reflexivity.
Qed.

Lemma has_two_decimals_text (prefix : string) (negative : bool) (n : Z) :
  0 <= n -> has_two_decimals (prefix ++ two_decimal_text negative n) = true.
Proof.
  intros Hn. unfold has_two_decimals, two_decimal_text.
  destruct (decimal_last (n / 100)) as [h Hh]; [apply Z.div_pos; lia |].
  rewrite Hh.
  rewrite !list_ascii_of_append. cbn [list_ascii_of_string].
  rewrite !rev_app_distr. cbn [rev app].
  rewrite !is_digit_digit_char; try (apply Z.mod_pos_bound; lia).
  reflexivity.
Qed.

(** ** toFixed *)

Lemma magnitude (s : bool) (m : positive) (e : Z) :
  (Qabs (to_Q (S754_finite s m e)) == inject_Z (Zpos m) * 2 ^ e)%Q.
Proof.
  cbn [to_Q]. rewrite Qabs_Qmult.
  rewrite (Qabs_pos (2 ^ e)) by (apply Qlt_le_weak, pow2_Q_gt0).
  destruct s; reflexivity.
Qed.

Lemma scaled_by_negative_power (a : Z) (p : positive) :
  (inject_Z a * 2 ^ Zneg p * inject_Z (2 ^ Zpos p) == inject_Z a)%Q.
Proof.
  rewrite pow2_Q by lia.
  change (Zneg p) with (- Zpos p). rewrite Qpower_opp.
  pose proof (pow2_Q_gt0 (Zpos p)). field. lra.
Qed.

(** Step 11.a computes the nearest number of hundredths. *)
Lemma nearest_scaled_spec (s : bool) (m : positive) (e : Z) :
  0 <= nearest_scaled m e 2 /\
  nearest_hundredths (to_Q (S754_finite s m e)) (nearest_scaled m e 2).
Proof.
  unfold nearest_hundredths. rewrite (magnitude s m e).
  unfold nearest_scaled. change (10 ^ 2) with 100.
  destruct e as [| q | p].
  - split; [lia |].
    assert (E : (100 * (inject_Z (Zpos m) * 2 ^ 0) == inject_Z (Zpos m * 100 * 2 ^ 0))%Q).
    { rewrite !inject_Z_mult. change (inject_Z (2 ^ 0)) with 1%Q.
      change (2 ^ 0)%Q with 1%Q. change (inject_Z 100) with 100%Q. ring. }
    rewrite E. set (n := inject_Z _). clearbody n. lra.
  - split; [assert (0 < 2 ^ Zpos q) by (apply Z.pow_pos_nonneg; lia); nia |].
    assert (E : (100 * (inject_Z (Zpos m) * 2 ^ Zpos q)
                 == inject_Z (Zpos m * 100 * 2 ^ Zpos q))%Q).
    { rewrite !inject_Z_mult, pow2_Q by lia. change (inject_Z 100) with 100%Q. ring. }
    rewrite E. set (n := inject_Z _). clearbody n. lra.
  - set (P := 2 ^ Zpos p). set (num := Zpos m * 100).
    assert (HP : 0 < P) by (apply Z.pow_pos_nonneg; lia).
    set (n := (2 * num + P) / (2 * P)).
    pose proof (Z.mul_div_le (2 * num + P) (2 * P) ltac:(lia)) as Hlo.
    pose proof (Z.mul_succ_div_gt (2 * num + P) (2 * P) ltac:(lia)) as Hhi.
    fold n in Hlo, Hhi.
    assert (Hn : 0 <= n) by (apply Z.div_pos; lia).
    split; [exact Hn |].
    assert (HPq : (0 < inject_Z P)%Q) by (change 0%Q with (inject_Z 0); now rewrite <- Zlt_Qlt).
    assert (Ey : (100 * (inject_Z (Zpos m) * 2 ^ Zneg p) == inject_Z num / inject_Z P)%Q).
    { subst num P. rewrite inject_Z_mult. change (inject_Z 100) with 100%Q.
      rewrite pow2_Q by lia.
      change (Zneg p) with (- Zpos p). rewrite Qpower_opp.
      pose proof (pow2_Q_gt0 (Zpos p)). field. lra. }
    rewrite Ey.
    assert (H1 : (inject_Z (2 * P * n) <= inject_Z (2 * num + P))%Q) by (now rewrite <- Zle_Qle).
    assert (H2 : (inject_Z (2 * num + P) < inject_Z (2 * P * Z.succ n))%Q) by (now rewrite <- Zlt_Qlt).
    unfold Z.succ in H2.
    repeat (rewrite inject_Z_plus in H1 || rewrite inject_Z_mult in H1).
    repeat (rewrite inject_Z_plus in H2 || rewrite inject_Z_mult in H2).
    change (inject_Z 2) with 2%Q in *. change (inject_Z 1) with 1%Q in *.
    set (Pq := inject_Z P) in *. clearbody Pq.
    set (N := inject_Z n) in *. clearbody N.
    set (X := inject_Z num) in *. clearbody X.
    assert (E1 : (2 * Pq * N == 2 * (N * Pq))%Q) by ring.
    assert (E2 : (2 * Pq * (N + 1) == 2 * (N * Pq) + 2 * Pq)%Q) by ring.
    rewrite E1 in H1. rewrite E2 in H2.
    split.
    + apply Qle_shift_div_l; [exact HPq |].
      assert (E3 : ((N - (1 # 2)) * Pq == N * Pq - (1 # 2) * Pq)%Q) by ring.
      rewrite E3. set (T := (N * Pq)%Q) in *. clearbody T. lra.
    + apply Qlt_shift_div_r; [exact HPq |].
      assert (E3 : ((N + (1 # 2)) * Pq == N * Pq + (1 # 2) * Pq)%Q) by ring.
      rewrite E3. set (T := (N * Pq)%Q) in *. clearbody T. lra.
Qed.

Lemma at_least_1e21_spec (m : positive) (e : Z) :
  at_least_1e21 m e = true <-> (inject_Z (10 ^ 21) <= inject_Z (Zpos m) * 2 ^ e)%Q.
Proof.
  unfold at_least_1e21. destruct e as [| q | p].
  - rewrite Z.leb_le, Zle_Qle, inject_Z_mult.
    change (inject_Z (2 ^ 0)) with (2 ^ 0)%Q. reflexivity.
  - rewrite Z.leb_le, Zle_Qle, inject_Z_mult, pow2_Q by lia. reflexivity.
  - rewrite Z.leb_le, Zle_Qle, inject_Z_mult.
    assert (HP : (0 < inject_Z (2 ^ Zpos p))%Q).
    { change 0%Q with (inject_Z 0). rewrite <- Zlt_Qlt. apply Z.pow_pos_nonneg; lia. }
    rewrite <- (scaled_by_negative_power (Zpos m) p) at 1.
    apply Qmult_le_r. exact HP.
Qed.

Section Text.
Context {E : Engine}.

(** With two fraction digits [toFixed] never throws. *)
Lemma toFixed_2_normal (x : number) : exists s, toFixed x 2 = Normal s.
Proof.
  unfold toFixed. cbn [Z.ltb Z.compare orb Pos.compare Pos.compare_cont].
  destruct x as [s | [|] | | s m e]; try (eexists; reflexivity).
  destruct (at_least_1e21 m e); eexists; reflexivity.
Qed.

Lemma toFixed_2_presentation (x : number) :
  exists s, toFixed x 2 = Normal s /\ presentation x s.
Proof.
  unfold toFixed. cbn [Z.ltb Z.compare orb Pos.compare Pos.compare_cont].
  destruct x as [sz | [|] | | s m e]; try (eexists; split; reflexivity).
  - eexists. split; [reflexivity |]. cbn [presentation to_Q is_negative]. split.
    + intros _. exists 0. split; [lia |]. split; [| reflexivity].
      split; [apply Qle_bool_iff |]; vm_compute; reflexivity.
    + intros Hbig. apply Qle_bool_iff in Hbig. discriminate Hbig.
  - destruct (at_least_1e21 m e) eqn:Hbig.
    + eexists. split; [reflexivity |]. cbn [presentation is_negative]. split.
      * intros Hsmall. rewrite magnitude in Hsmall.
        apply at_least_1e21_spec in Hbig. lra.
      * intros _. reflexivity.
    + eexists. split; [reflexivity |]. cbn [presentation is_negative]. split.
      * intros _. destruct (nearest_scaled_spec s m e) as [Hn Hnear].
        exists (nearest_scaled m e 2). split; [exact Hn |]. split; [exact Hnear |].
        unfold two_decimal_text. change (Z.to_nat 2) with 2%nat.
        now rewrite fixed_digits_2.
      * intros Hlarge. rewrite magnitude in Hlarge.
        apply at_least_1e21_spec in Hlarge. congruence.
Qed.

Lemma presentation_two_decimals (prefix : string) (x : number) (s : string) :
  presentation x s -> is_finite x = true ->
  (Qabs (to_Q x) < inject_Z (10 ^ 21))%Q ->
  has_two_decimals (prefix ++ s) = true.
Proof.
  intros Hs Hfin Hsmall.
  destruct x as [sz | | | sg m e]; try discriminate;
    destruct Hs as [Hs _]; destruct (Hs Hsmall) as (n & Hn & _ & ->);
    now apply has_two_decimals_text.
Qed.

(** ** Running the two functions *)

Lemma interest_only_unfold (l : Loan) (w : world) (s : string) :
  toFixed (interestOnlyPaymentValue (principle l) (interest l)) 2 = Normal s ->
  calculateInterestOnlyLoanPayment l w =
    (Normal ("The interest only loan payment is " ++ s), w).
Proof.
  intros Hs. unfold calculateInterestOnlyLoanPayment, bind, lift, ret.
  rewrite Hs. reflexivity.
Qed.

Lemma conventional_text_normal (l : ConventionalLoan) (w : world) (s : string) :
  toFixed (conventionalPaymentValue (principle l) (interest l) (months l)) 2 = Normal s ->
  calculateConventionalLoanPayment l w =
    (Normal ("The conventional loan payment is " ++ s), w).
Proof.
  intros Hs. unfold calculateConventionalLoanPayment, bind, lift, ret.
  rewrite Hs. reflexivity.
Qed.

Lemma conventional_unfold (l : ConventionalLoan) (w : world) :
  calculateConventionalLoanPayment l w =
    (conventional_text (principle l) (interest l)
       (Math_pow (div (of_Z 1) (add (of_Z 1) (div (interest l) (of_Z 1200))))
                 (months l)), w).
Proof.
  unfold calculateConventionalLoanPayment, conventional_text, bind, lift, ret.
  unfold conventionalPaymentValue. cbn [ndiv nmul nsub nadd npow lit binary64].
  destruct (toFixed _ 2); reflexivity.
Qed.

(** ** The zero rate *)

Lemma zero_rate_interest (r : number) :
  is_zero r = true -> is_zero (div r (of_Z 1200)) = true.
Proof. destruct r; try discriminate. intros _. reflexivity. Qed.

Lemma one_plus_zero (i : number) :
  is_zero i = true -> add (of_Z 1) i = of_Z 1.
Proof. destruct i; try discriminate. intros _. reflexivity. Qed.

Lemma one_div_one : div (of_Z 1) (of_Z 1) = of_Z 1.
Proof. vm_compute. reflexivity. Qed.

Lemma one_minus_one : sub (of_Z 1) (of_Z 1) = S754_zero false.
Proof. vm_compute. reflexivity. Qed.

Lemma anything_times_zero_over_zero (p i : number) :
  is_zero i = true -> div (mul p i) (S754_zero false) = S754_nan.
Proof.
  destruct i; try discriminate. intros _.
  destruct p; reflexivity.
Qed.

(** With a zero rate the divisor of line 40 is [+0] and the payment is
    [NaN], whatever the principal. *)
Lemma zero_rate_payment (p r n : number) :
  is_zero r = true ->
  Math_pow (of_Z 1) n = of_Z 1 ->
  conventionalDenominator r n = S754_zero false /\
  conventionalPaymentValue p r n = S754_nan.
Proof.
  intros Hr Hpow.
  unfold conventionalDenominator, conventionalPaymentValue.
  cbn [ndiv nmul nsub nadd npow lit binary64].
  pose proof (zero_rate_interest r Hr) as Hi.
  rewrite (one_plus_zero _ Hi), one_div_one, Hpow, one_minus_one.
  split; [reflexivity | apply anything_times_zero_over_zero; exact Hi].
Qed.

(** ** The sample call of Math.pow *)

Lemma within_ulps_finite (k : Z) (w : number) (sc : bool) (mc : positive) (ec : Z) :
  within_ulps k w (S754_finite sc mc ec) = true ->
  exists m, w = S754_finite sc m ec /\ Z.abs (Zpos m - Zpos mc) <= k.
Proof.
  destruct w as [ | | | s m e]; try discriminate.
  cbn [within_ulps]. intros Hacc.
  apply andb_true_iff in Hacc. destruct Hacc as [Hacc Hm].
  apply andb_true_iff in Hacc. destruct Hacc as [Hs He].
  apply Bool.eqb_prop in Hs. apply Z.eqb_eq in He. apply Z.leb_le in Hm.
  subst s e. now exists m.
Qed.

Lemma sample_power_value :
  Sample.pow sample_base (of_Z 180)
  = S754_finite false (Z.to_pos sample_power_significand) (-54).
Proof. vm_compute. reflexivity. Qed.

Lemma sample_pow_returns :
  pow_accurate_on_sample ->
  exists m, Math_pow sample_base (of_Z 180) = S754_finite false m (-54) /\
            Z.abs (Zpos m - sample_power_significand) <= 1024.
Proof.
  unfold pow_accurate_on_sample. rewrite sample_power_value.
  apply within_ulps_finite.
Qed.

Lemma sample_text_checked :
  forallb (fun i => completion_is "The conventional loan payment is 237.24"
                      (sample_text (sample_power_significand - 1024 + Z.of_nat i)))
          (seq 0 2049) = true.
Proof. vm_compute. reflexivity. Qed.

Lemma sample_text_in_range (m : Z) :
  Z.abs (m - sample_power_significand) <= 1024 ->
  sample_text m = Normal "The conventional loan payment is 237.24".
Proof.
  intros Hm.
  pose proof sample_text_checked as Hall.
  rewrite forallb_forall in Hall.
  specialize (Hall (Z.to_nat (m - (sample_power_significand - 1024)))).
  rewrite Z2Nat.id in Hall by lia.
  replace (sample_power_significand - 1024 + (m - (sample_power_significand - 1024)))
    with m in Hall by lia.
  assert (Hin : In (Z.to_nat (m - (sample_power_significand - 1024))) (seq 0 2049)).
  { apply in_seq. lia. }
  specialize (Hall Hin).
  destruct (sample_text m) as [s | e]; cbn in Hall; [| discriminate].
  apply String.eqb_eq in Hall. now subst.
Qed.

End Text.

(** The sample engine at the sample call. *)
Lemma sample_engine_denominator :
  conventionalDenominator (A := Sample.arith) (of_Z 5) (of_Z 180)
  = sub (of_Z 1) (S754_finite false (Z.to_pos sample_power_significand) (-54)).
Proof.
  unfold conventionalDenominator.
  cbn [ndiv nsub nadd npow lit binary64 Math_pow Sample.engine].
  fold sample_base. now rewrite sample_power_value.
Qed.

Lemma sample_engine_payment :
  conventionalPaymentValue (A := Sample.arith) (of_Z 30000) (of_Z 5) (of_Z 180)
  = sample_value sample_power_significand.
Proof.
  unfold conventionalPaymentValue, sample_value.
  cbn [ndiv nmul nsub nadd npow lit binary64 Math_pow Sample.engine].
  fold sample_base. now rewrite sample_power_value.
Qed.

Lemma sample_exact_close :
  (Qabs (sample_exact - sample_exact_approx) <= 1 # 1000000000000000)%Q.
Proof. apply Qle_bool_iff. vm_compute. reflexivity. Qed.

Lemma sample_value_checked :
  forallb (fun i => Qle_bool (Qabs (to_Q (sample_value (sample_power_significand - 1024 + Z.of_nat i))
                                    - sample_exact_approx)) (9 # 100000000000))
          (seq 0 2049) = true.
Proof. vm_compute. reflexivity. Qed.

Lemma sample_value_in_range (m : Z) :
  Z.abs (m - sample_power_significand) <= 1024 ->
  (Qabs (to_Q (sample_value m) - sample_exact) <= sample_tolerance)%Q.
Proof.
  intros Hm.
  pose proof sample_value_checked as Hall.
  rewrite forallb_forall in Hall.
  specialize (Hall (Z.to_nat (m - (sample_power_significand - 1024)))).
  rewrite Z2Nat.id in Hall by lia.
  replace (sample_power_significand - 1024 + (m - (sample_power_significand - 1024)))
    with m in Hall by lia.
  assert (Hin : In (Z.to_nat (m - (sample_power_significand - 1024))) (seq 0 2049))
    by (apply in_seq; lia).
  apply Hall, Qle_bool_iff, Qabs_Qle_condition in Hin.
  pose proof sample_exact_close as Hc. apply Qabs_Qle_condition in Hc.
  apply Qabs_Qle_condition. unfold sample_tolerance.
  set (v := to_Q (sample_value m)) in *. clearbody v.
  set (x := sample_exact) in *. clearbody x.
  unfold sample_exact_approx in *. lra.
Qed.

(** ** The formula over the rationals *)

Lemma power_of_inverse (a : Q) (n : Z) : ((1 / a) ^ n == a ^ (- n))%Q.
Proof.
  rewrite Qpower_opp, <- Qinv_power.
  apply Qpower_comp; [| reflexivity]. unfold Qdiv. ring.
Qed.

Lemma discount_below_one (i : Q) (n : Z) :
  (0 < i)%Q -> 0 < n -> ((1 + i) ^ (- n) < 1)%Q.
Proof.
  intros Hi Hn.
  assert (H1 : (1 < (1 + i) ^ n)%Q) by (apply Qpower_1_lt; [lra | exact Hn]).
  rewrite Qpower_opp.
  change 1%Q with (/ 1)%Q at 2.
  assert (Hpos : (0 < (1 + i) ^ n)%Q) by lra.
  exact (proj1 (Qinv_lt_contravar 1 ((1 + i) ^ n) eq_refl Hpos) H1).
Qed.

(** * The claims *)

(** ** The sample calls (lines 44-55) *)

Section SampleCalls.
Context {E : Engine}.

Lemma interest_only_sample_run (w : world) :
  interestOnlyPayment w = (Normal "The interest only loan payment is 125.00", w).
Proof.
  unfold interestOnlyPayment. apply interest_only_unfold.
  vm_compute. reflexivity.
Qed.

Lemma conventional_sample_run (w : world) :
  pow_accurate_on_sample ->
  conventionalPayment w = (Normal "The conventional loan payment is 237.24", w).
Proof.
  intros Hacc. destruct (sample_pow_returns Hacc) as (m & Hw & Hm).
  unfold conventionalPayment. rewrite conventional_unfold.
  cbn [principle interest months loan]. fold sample_base. rewrite Hw.
  change (S754_finite false m (-54))
    with (S754_finite false (Z.to_pos (Zpos m)) (-54)).
  fold (sample_text (Zpos m)).
  rewrite sample_text_in_range; [reflexivity | exact Hm].
Qed.

(** The script prints the two lines its comments announce. *)
Lemma main_console (w : world) :
  pow_accurate_on_sample ->
  main w = (Normal tt,
            {| console := (console w
                           ++ ["The interest only loan payment is 125.00";
                               "The conventional loan payment is 237.24"])%list |}).
Proof.
  intros Hacc. unfold main, bind.
  rewrite interest_only_sample_run, (conventional_sample_run w Hacc).
  unfold console_log. cbn [console]. now rewrite <- app_assoc.
Qed.

(** C5: the interest-only payment for a principal of 30000 at 5 percent is
    exactly 125, and the call returns it formatted as 125.00. *)
Theorem interest_only_sample (w : world) :
  interestOnlyPaymentValue (of_Z 30000) (of_Z 5) = of_Z 125 /\
  interestOnlyPayment w = (Normal "The interest only loan payment is 125.00", w).
Proof.
  split; [vm_compute; reflexivity | apply interest_only_sample_run].
Qed.

(** C6: the conventional payment for 30000 at 5 percent over 180 months is
    returned as 237.24, on every engine whose [Math.pow] is within 1024
    units in the last place of the exact power at that call. *)
Theorem conventional_sample (w : world) :
  pow_accurate_on_sample ->
  conventionalPayment w = (Normal "The conventional loan payment is 237.24", w).
Proof. apply conventional_sample_run. Qed.

End SampleCalls.

Lemma conventional_sample_witness :
  conventionalPayment (E := Sample.engine) empty_world
  = (Normal "The conventional loan payment is 237.24", empty_world).
Proof.
  apply (conventional_sample (E := Sample.engine) empty_world).
  unfold pow_accurate_on_sample. cbn [Math_pow Sample.engine].
  rewrite sample_power_value. vm_compute. reflexivity.
Defined.

(** ** The interest-only formula *)

(** C1, as stated, fails: for a principal of 1000 at 7 percent the computed
    payment is not 1000 * 7 / 1200, and it is not even the number nearest
    to it (which is what 7000 / 1200 evaluates to). *)
Lemma interest_only_not_exact :
  (~ to_Q (interestOnlyPaymentValue (A := Sample.arith) (of_Z 1000) (of_Z 7))
     == spec_computeInterestOnlyPayment 1000 7)%Q /\
  SFeqb (interestOnlyPaymentValue (A := Sample.arith) (of_Z 1000) (of_Z 7))
        (div (of_Z 7000) (of_Z 1200)) = false.
Proof.
  split; [apply Qeq_bool_neq |]; vm_compute; reflexivity.
Qed.

(** C1, amended: the payment is the binary64 product of the principal and
    the binary64 quotient rate / 1200.  At a zero rate it is zero; at a
    positive rate, when neither the monthly rate nor the payment leaves the
    normal range, it is within a relative 2^-52 + 2^-106 (two roundings) of
    principal * rate / 1200. *)
Theorem interest_only_rounding {E : Engine} (p r : number) :
  is_positive p = true ->
  (is_zero r = true -> is_zero (interestOnlyPaymentValue p r) = true) /\
  (is_positive r = true ->
   is_normal (div r (of_Z 1200)) = true ->
   is_normal (interestOnlyPaymentValue p r) = true ->
   (Qabs (to_Q (interestOnlyPaymentValue p r)
          - spec_computeInterestOnlyPayment (to_Q p) (to_Q r))
    <= two_roundings * to_Q (interestOnlyPaymentValue p r))%Q).
Proof.
  intros Hp.
  unfold interestOnlyPaymentValue, spec_computeInterestOnlyPayment.
  cbn [ndiv nmul lit binary64]. split.
  - intros Hr. pose proof (zero_rate_interest r Hr) as Hi.
    destruct (div r (of_Z 1200)); try discriminate.
    destruct p as [| | | [] mp ep]; try discriminate. reflexivity.
  - intros Hr Hni Hnpay.
    set (i := div r (of_Z 1200)) in *.
    assert (H1200 : is_positive (of_Z 1200) = true) by reflexivity.
    pose proof (div_positive r (of_Z 1200) Hr H1200 Hni) as Hi.
    pose proof (div_rounding r (of_Z 1200) Hr H1200 Hni) as Hdiv.
    pose proof (mul_rounding p i Hp Hi Hnpay) as Hmul.
    fold i in Hdiv. rewrite to_Q_1200 in Hdiv.
    pose proof (positive_value p Hp) as HP.
    apply (scaled_error _ _ (to_Q p)) in Hdiv; [| now apply Qlt_le_weak].
    apply Qabs_Qle_condition in Hdiv. apply Qabs_Qle_condition in Hmul.
    apply Qabs_Qle_condition.
    assert (E1 : (to_Q p * (to_Q r / 1200) == to_Q r / 1200 * to_Q p)%Q) by ring.
    rewrite E1.
    assert (E2 : (to_Q p * to_Q i == to_Q i * to_Q p)%Q) by ring.
    rewrite E2 in Hmul.
    unfold two_roundings, unit_roundoff in *.
    set (T := (to_Q i * to_Q p)%Q) in *. clearbody T.
    set (X := (to_Q r / 1200 * to_Q p)%Q) in *. clearbody X.
    set (Pay := to_Q (mul p i)) in *. clearbody Pay.
    change (2 ^ 53)%positive with 9007199254740992%positive in *.
    lra.
Qed.

Lemma interest_only_rounding_witness :
  (Qabs (to_Q (interestOnlyPaymentValue (A := Sample.arith) (of_Z 1000) (of_Z 7))
         - spec_computeInterestOnlyPayment (to_Q (of_Z 1000)) (to_Q (of_Z 7)))
   <= two_roundings
      * to_Q (interestOnlyPaymentValue (A := Sample.arith) (of_Z 1000) (of_Z 7)))%Q.
Proof.
  apply (interest_only_rounding (E := Sample.engine) (of_Z 1000) (of_Z 7));
    vm_compute; reflexivity.
Defined.

(** ** The amortized formula *)

(** C2, as stated, fails: for the sample loan the computed payment is not
    the value of the formula, and at a rate of 2^-60 percent, where
    1 + monthlyRate rounds to 1, the computed payment is +Infinity. *)
Lemma computed_is_not_exact :
  (~ to_Q (conventionalPaymentValue (A := Sample.arith)
            (of_Z 30000) (of_Z 5) (of_Z 180))
     == spec_computeAmortizedPayment 30000 5 180)%Q /\
  conventionalPaymentValue (A := Sample.arith)
    (of_Z 30000) (div (of_Z 1) (of_Z (2 ^ 60))) (of_Z 180)
  = S754_infinity false.
Proof.
  split.
  - rewrite sample_engine_payment. apply Qeq_bool_neq. vm_compute. reflexivity.
  - vm_compute. reflexivity.
Qed.

(** C2, amended: read over exact arithmetic, for every principal, every
    rate above zero and every positive integer term, the divisor of the
    code 1 - (1 / (1 + i))^n is not zero and equals 1 - (1 + i)^(-n), and
    the expression of the code equals the formula of the specification.
    The function evaluates that expression in binary64: for the sample loan
    the computed payment is within 10^-10 of the formula's value on every
    engine whose [Math.pow] is within 1024 units in the last place. *)
Theorem conventional_formula {E : Engine} :
  (forall (p r : Q) (n : Z),
      (0 < r)%Q -> 0 < n ->
      (~ 1 - (1 + r / 1200) ^ (- n) == 0)%Q /\
      (conventionalDenominator r (inject_Z n) == 1 - (1 + r / 1200) ^ (- n))%Q /\
      (conventionalPaymentValue p r (inject_Z n)
       == spec_computeAmortizedPayment p r n)%Q) /\
  (pow_accurate_on_sample ->
   (Qabs (to_Q (conventionalPaymentValue (of_Z 30000) (of_Z 5) (of_Z 180))
          - spec_computeAmortizedPayment 30000 5 180) <= sample_tolerance)%Q).
Proof.
  split.
  - intros p r n Hr Hn.
    assert (Hi : (0 < r / 1200)%Q).
    { apply Qlt_shift_div_l; [reflexivity | lra]. }
    pose proof (discount_below_one _ n Hi Hn) as Hlt.
    unfold conventionalDenominator, conventionalPaymentValue, spec_computeAmortizedPayment.
    cbn [ndiv nmul nsub nadd npow lit exact].
    rewrite Qfloor_Z.
    change (inject_Z 1) with 1%Q. change (inject_Z 1200) with 1200%Q.
    rewrite power_of_inverse.
    split; [lra |]. split; reflexivity.
  - intros Hacc. destruct (sample_pow_returns Hacc) as (m & Hw & Hm).
    unfold conventionalPaymentValue. cbn [ndiv nmul nsub nadd npow lit binary64].
    fold sample_base. rewrite Hw.
    exact (sample_value_in_range (Zpos m) Hm).
Qed.

Lemma conventional_formula_witness :
  (conventionalPaymentValue (A := exact) 30000 5 (inject_Z 180)
   == spec_computeAmortizedPayment 30000 5 180)%Q /\
  (Qabs (to_Q (conventionalPaymentValue (A := Sample.arith)
                 (of_Z 30000) (of_Z 5) (of_Z 180))
         - spec_computeAmortizedPayment 30000 5 180) <= sample_tolerance)%Q.
Proof.
  destruct (conventional_formula (E := Sample.engine)) as [Hexact Hsample].
  split.
  - apply (Hexact 30000%Q 5%Q 180); reflexivity.
  - apply Hsample.
    unfold pow_accurate_on_sample. cbn [Math_pow Sample.engine].
    rewrite sample_power_value. vm_compute. reflexivity.
Defined.

(** ** The zero rate *)

(** C10: with an interest rate of zero the divisor of line 40 is 0, the
    dividend is 0 as well, the payment is NaN and the call returns the text
    ending in NaN: neither a number nor an error. *)
Theorem zero_rate_conventional_nan {E : Engine} (l : ConventionalLoan) (w : world) :
  is_zero (interest l) = true ->
  is_finite (principle l) = true ->
  Math_pow (of_Z 1) (months l) = of_Z 1 ->
  is_zero (mul (principle l) (div (interest l) (of_Z 1200))) = true /\
  conventionalDenominator (interest l) (months l) = S754_zero false /\
  conventionalPaymentValue (principle l) (interest l) (months l) = S754_nan /\
  calculateConventionalLoanPayment l w
  = (Normal "The conventional loan payment is NaN", w).
Proof.
  intros Hr Hp Hpow.
  destruct (zero_rate_payment (principle l) (interest l) (months l) Hr Hpow)
    as [Hden Hpay].
  split; [| split; [exact Hden | split; [exact Hpay |]]].
  - pose proof (zero_rate_interest _ Hr) as Hi.
    destruct (div (interest l) (of_Z 1200)); try discriminate.
    destruct (principle l); try discriminate; reflexivity.
  - apply conventional_text_normal. rewrite Hpay. reflexivity.
Qed.

Lemma zero_rate_conventional_nan_witness :
  calculateConventionalLoanPayment (E := Sample.engine)
    {| loan := {| principle := of_Z 30000; interest := of_Z 0 |};
       months := of_Z 180 |} empty_world
  = (Normal "The conventional loan payment is NaN", empty_world).
Proof.
  apply (zero_rate_conventional_nan (E := Sample.engine)
           {| loan := {| principle := of_Z 30000; interest := of_Z 0 |};
              months := of_Z 180 |} empty_world); vm_compute; reflexivity.
Defined.

(** C3: at a zero rate the code does not return principal / months: for
    1200 over 12 months the straight-line payment is 100, the computed
    payment is NaN and the returned text ends in NaN. *)
Theorem zero_rate_not_straight_line {E : Engine} (w : world) :
  Math_pow (of_Z 1) (of_Z 12) = of_Z 1 ->
  let l := {| loan := {| principle := of_Z 1200; interest := of_Z 0 |};
              months := of_Z 12 |} in
  div (principle l) (months l) = of_Z 100 /\
  conventionalPaymentValue (principle l) (interest l) (months l) = S754_nan /\
  calculateConventionalLoanPayment l w
  = (Normal "The conventional loan payment is NaN", w).
Proof.
  intros Hpow l.
  destruct (zero_rate_payment (principle l) (interest l) (months l)
              eq_refl Hpow) as [_ Hpay].
  split; [| split].
  - vm_compute. reflexivity.
  - exact Hpay.
  - apply conventional_text_normal. rewrite Hpay. reflexivity.
Qed.

Lemma zero_rate_not_straight_line_witness :
  calculateConventionalLoanPayment (E := Sample.engine)
    {| loan := {| principle := of_Z 1200; interest := of_Z 0 |};
       months := of_Z 12 |} empty_world
  = (Normal "The conventional loan payment is NaN", empty_world).
Proof.
  apply (zero_rate_not_straight_line (E := Sample.engine) empty_world).
  vm_compute. reflexivity.
Defined.

(** ** No validation *)

(** C4, as stated, fails: a negative principal, a negative rate and a term
    of zero months are all accepted and a text is returned. *)
Lemma invalid_input_accepted :
  result (calculateInterestOnlyLoanPayment (E := Sample.engine)
            {| principle := of_Z (-30000); interest := of_Z 5 |}) empty_world
  = Normal "The interest only loan payment is -125.00" /\
  result (calculateInterestOnlyLoanPayment (E := Sample.engine)
            {| principle := of_Z 30000; interest := of_Z (-5) |}) empty_world
  = Normal "The interest only loan payment is -125.00" /\
  result (calculateConventionalLoanPayment (E := Sample.engine)
            {| loan := {| principle := of_Z 30000; interest := of_Z 5 |};
               months := of_Z 0 |}) empty_world
  = Normal "The conventional loan payment is Infinity".
Proof. split; [| split]; vm_compute; reflexivity. Qed.

(** C4, amended: no input is rejected.  For every loan, valid or not, each
    function completes normally with its prefix followed by what
    [toFixed(2)] writes for the payment; nothing is thrown. *)
Theorem calls_never_throw {E : Engine} :
  (forall (l : Loan) (w : world), exists s,
      toFixed (interestOnlyPaymentValue (principle l) (interest l)) 2 = Normal s /\
      result (calculateInterestOnlyLoanPayment l) w
      = Normal ("The interest only loan payment is " ++ s)) /\
  (forall (l : ConventionalLoan) (w : world), exists s,
      toFixed (conventionalPaymentValue (principle l) (interest l) (months l)) 2
      = Normal s /\
      result (calculateConventionalLoanPayment l) w
      = Normal ("The conventional loan payment is " ++ s)).
Proof.
  split; intros l w.
  - destruct (toFixed_2_normal (interestOnlyPaymentValue (principle l) (interest l)))
      as [s Hs].
    exists s. split; [exact Hs |].
    unfold result. rewrite (interest_only_unfold l w s Hs). reflexivity.
  - destruct (toFixed_2_normal
                (conventionalPaymentValue (principle l) (interest l) (months l)))
      as [s Hs].
    exists s. split; [exact Hs |].
    unfold result. rewrite (conventional_text_normal l w s Hs). reflexivity.
Qed.

(** ** Non-negative payments *)

(** C7, as stated, fails: a payment need not be a real number.  The
    interest-only product overflows to +Infinity for a principal and a rate
    of 10^308, and the amortized payment is +Infinity at a rate of 2^-60
    percent, where 1 + monthlyRate rounds to 1. *)
Lemma payment_not_real :
  interestOnlyPaymentValue (A := Sample.arith) (of_Z (10 ^ 308)) (of_Z (10 ^ 308))
  = S754_infinity false /\
  conventionalPaymentValue (A := Sample.arith)
    (of_Z 30000) (div (of_Z 1) (of_Z (2 ^ 60))) (of_Z 180)
  = S754_infinity false.
Proof. split; vm_compute; reflexivity. Qed.

(** C7, amended: for every finite principal above zero and every rate that
    is not negative, the interest-only payment is a non-negative number
    (finite, or +Infinity on overflow; never NaN); so is the amortized
    payment whenever its divisor 1 - Math.pow(1 / (1 + i), months) is a
    positive finite number. *)
Theorem payments_not_negative {E : Engine} :
  (forall p r : number,
      is_positive p = true -> non_negative r = true ->
      non_negative (interestOnlyPaymentValue p r) = true) /\
  (forall p r n : number,
      is_positive p = true -> non_negative r = true ->
      is_positive (conventionalDenominator r n) = true ->
      non_negative (conventionalPaymentValue p r n) = true).
Proof.
  assert (H1200 : is_positive (of_Z 1200) = true) by reflexivity.
  split.
  - intros p r Hp Hr. unfold interestOnlyPaymentValue.
    cbn [ndiv nmul lit binary64].
    apply mul_non_negative; [exact Hp |].
    now apply div_non_negative.
  - intros p r n Hp Hr Hd.
    unfold conventionalPaymentValue, conventionalDenominator in *.
    cbn [ndiv nmul nsub nadd npow lit binary64] in *.
    apply div_non_negative; [| exact Hd].
    apply mul_non_negative; [exact Hp |].
    now apply div_non_negative.
Qed.

Lemma payments_not_negative_witness :
  non_negative (interestOnlyPaymentValue (A := Sample.arith) (of_Z 30000) (of_Z 5)) = true /\
  non_negative (conventionalPaymentValue (A := Sample.arith)
                  (of_Z 30000) (of_Z 5) (of_Z 180)) = true.
Proof.
  destruct (payments_not_negative (E := Sample.engine)) as [Hio Hconv].
  split.
  - apply Hio; vm_compute; reflexivity.
  - apply Hconv; [vm_compute; reflexivity | vm_compute; reflexivity |].
    rewrite sample_engine_denominator. vm_compute. reflexivity.
Defined.

(** ** Purity *)

(** C8: a call of either function leaves the world as it found it, and its
    result does not depend on the world: two calls with the same loan
    return the same completion. *)
Theorem calls_are_pure {E : Engine} :
  (forall (l : Loan) (w w' : world),
      effect (calculateInterestOnlyLoanPayment l) w = w /\
      result (calculateInterestOnlyLoanPayment l) w
      = result (calculateInterestOnlyLoanPayment l) w') /\
  (forall (l : ConventionalLoan) (w w' : world),
      effect (calculateConventionalLoanPayment l) w = w /\
      result (calculateConventionalLoanPayment l) w
      = result (calculateConventionalLoanPayment l) w').
Proof.
  split; intros l w w'.
  - destruct (toFixed_2_normal (interestOnlyPaymentValue (principle l) (interest l)))
      as [s Hs].
    unfold effect, result.
    rewrite !(interest_only_unfold l _ s Hs). split; reflexivity.
  - destruct (toFixed_2_normal
                (conventionalPaymentValue (principle l) (interest l) (months l)))
      as [s Hs].
    unfold effect, result.
    rewrite !(conventional_text_normal l _ s Hs). split; reflexivity.
Qed.

(** ** The returned text *)

(** C9, as stated, fails: when the payment overflows the returned text ends
    in Infinity, without decimal places. *)
Lemma text_without_decimals :
  result (calculateInterestOnlyLoanPayment (E := Sample.engine)
            {| principle := of_Z (10 ^ 308); interest := of_Z (10 ^ 308) |})
         empty_world
  = Normal "The interest only loan payment is Infinity" /\
  has_two_decimals "The interest only loan payment is Infinity" = false.
Proof. split; vm_compute; reflexivity. Qed.

(** C9, amended: each function returns its prefix followed by what
    [toFixed(2)] writes for the payment.  For a finite payment of
    magnitude below 10^21 that is the nearest number of hundredths, with
    exactly two digits after the point; for NaN and the infinities it is
    their name, and from 10^21 on the engine's exponent notation. *)
Theorem returned_text {E : Engine} :
  (forall (l : Loan) (w : world),
      let x := interestOnlyPaymentValue (principle l) (interest l) in
      exists s, presentation x s /\
        result (calculateInterestOnlyLoanPayment l) w
        = Normal ("The interest only loan payment is " ++ s) /\
        (is_finite x = true -> (Qabs (to_Q x) < inject_Z (10 ^ 21))%Q ->
         has_two_decimals ("The interest only loan payment is " ++ s) = true)) /\
  (forall (l : ConventionalLoan) (w : world),
      let x := conventionalPaymentValue (principle l) (interest l) (months l) in
      exists s, presentation x s /\
        result (calculateConventionalLoanPayment l) w
        = Normal ("The conventional loan payment is " ++ s) /\
        (is_finite x = true -> (Qabs (to_Q x) < inject_Z (10 ^ 21))%Q ->
         has_two_decimals ("The conventional loan payment is " ++ s) = true)).
Proof.
  split; intros l w x; destruct (toFixed_2_presentation x) as (s & Hs & Hpres);
    exists s; (split; [exact Hpres |]); split.
  - unfold result. now rewrite (interest_only_unfold l w s Hs).
  - now apply presentation_two_decimals.
  - unfold result. now rewrite (conventional_text_normal l w s Hs).
  - now apply presentation_two_decimals.
Qed.

Lemma returned_text_witness :
  exists s,
    result (calculateInterestOnlyLoanPayment (E := Sample.engine)
              {| principle := of_Z 30000; interest := of_Z 5 |}) empty_world
    = Normal ("The interest only loan payment is " ++ s) /\
    has_two_decimals ("The interest only loan payment is " ++ s) = true.
Proof.
  destruct (returned_text (E := Sample.engine)) as [Hio _].
  destruct (Hio {| principle := of_Z 30000; interest := of_Z 5 |} empty_world)
    as (s & _ & Htext & Htwo).
  exists s. split; [exact Htext |].
  apply Htwo; vm_compute; reflexivity.
Defined.

(** * Further properties of the two functions *)

(** ** Negated inputs *)

Lemma binary_round_aux_opp (s : bool) (m e : Z) (l : location) :
  binary_round_aux prec emax (negb s) m e l
  = SFopp (binary_round_aux prec emax s m e l).
Proof.
  unfold binary_round_aux.
  destruct (shr_fexp prec emax m e l) as [mrs' e'].
  destruct (shr_fexp prec emax _ e' loc_Exact) as [mrs'' e''].
  destruct (shr_m mrs'') as [| p | p]; cbn [SFopp]; try reflexivity.
  destruct (e'' <=? emax - prec); reflexivity.
Qed.

Lemma mul_opp_l (a b : number) : mul (SFopp a) b = SFopp (mul a b).
Proof.
  destruct a as [sa | sa | | sa ma ea], b as [sb | sb | | sb mb eb];
    unfold mul; cbn [SFmul SFopp]; rewrite <- ?negb_xorb_l; try reflexivity.
  apply binary_round_aux_opp.
Qed.

Lemma mul_opp_r (a b : number) : mul a (SFopp b) = SFopp (mul a b).
Proof.
  destruct a as [sa | sa | | sa ma ea], b as [sb | sb | | sb mb eb];
    unfold mul; cbn [SFmul SFopp]; rewrite <- ?negb_xorb_r; try reflexivity.
  apply binary_round_aux_opp.
Qed.

Lemma div_opp_l (a b : number) : div (SFopp a) b = SFopp (div a b).
Proof.
  destruct a as [sa | sa | | sa ma ea], b as [sb | sb | | sb mb eb];
    unfold div; cbn [SFdiv SFopp]; rewrite <- ?negb_xorb_l; try reflexivity.
  destruct (SFdiv_core_binary prec emax (Zpos ma) ea (Zpos mb) eb) as [[q e] l].
  apply binary_round_aux_opp.
Qed.

Lemma toFixed_opp {E : Engine} (x : number) (s : string) :
  above_zero x = true -> toFixed x 2 = Normal s ->
  toFixed (SFopp x) 2 = Normal ("-" ++ s).
Proof.
  unfold toFixed. cbn [Z.ltb Z.compare orb Pos.compare Pos.compare_cont].
  destruct x as [sz | [|] | | [|] m e]; try discriminate; intros _; cbn [SFopp negb].
  - intros [= <-]. reflexivity.
  - destruct (at_least_1e21 m e); intros [= <-]; reflexivity.
Qed.

Section Negation.
Context {E : Engine}.

Lemma interest_only_opp_principal (p r : number) :
  interestOnlyPaymentValue (N := number) (SFopp p) r
  = SFopp (interestOnlyPaymentValue p r).
Proof. apply mul_opp_l. Qed.

Lemma interest_only_opp_rate (p r : number) :
  interestOnlyPaymentValue (N := number) p (SFopp r)
  = SFopp (interestOnlyPaymentValue p r).
Proof.
  unfold interestOnlyPaymentValue. cbn [ndiv nmul lit binary64].
  now rewrite div_opp_l, mul_opp_r.
Qed.

Lemma conventional_opp_principal (p r n : number) :
  conventionalPaymentValue (N := number) (SFopp p) r n
  = SFopp (conventionalPaymentValue p r n).
Proof.
  unfold conventionalPaymentValue. cbn [ndiv nmul nsub nadd npow lit binary64].
  now rewrite mul_opp_l, div_opp_l.
Qed.

Lemma interest_only_text_inv (l : Loan) (w : world) (s : string) :
  result (calculateInterestOnlyLoanPayment l) w
  = Normal ("The interest only loan payment is " ++ s) ->
  toFixed (interestOnlyPaymentValue (principle l) (interest l)) 2 = Normal s.
Proof.
  destruct (toFixed_2_normal (interestOnlyPaymentValue (principle l) (interest l)))
    as [s' Hs'].
  unfold result. rewrite (interest_only_unfold l w s' Hs'). cbn [fst].
  intros [= H]. now subst.
Qed.

Lemma conventional_text_inv (l : ConventionalLoan) (w : world) (s : string) :
  result (calculateConventionalLoanPayment l) w
  = Normal ("The conventional loan payment is " ++ s) ->
  toFixed (conventionalPaymentValue (principle l) (interest l) (months l)) 2 = Normal s.
Proof.
  destruct (toFixed_2_normal
              (conventionalPaymentValue (principle l) (interest l) (months l)))
    as [s' Hs'].
  unfold result. rewrite (conventional_text_normal l w s' Hs'). cbn [fst].
  intros [= H]. now subst.
Qed.

(** X1: negating the principal negates both payments and negating the rate
    negates the interest-only payment, exactly and for every number (the
    rounding is symmetric; the opposite of NaN is NaN). *)
Theorem payment_odd (p r n : number) :
  interestOnlyPaymentValue (N := number) (SFopp p) r
  = SFopp (interestOnlyPaymentValue p r) /\
  interestOnlyPaymentValue (N := number) p (SFopp r)
  = SFopp (interestOnlyPaymentValue p r) /\
  conventionalPaymentValue (N := number) (SFopp p) r n
  = SFopp (conventionalPaymentValue p r n).
Proof.
  split; [apply interest_only_opp_principal |].
  split; [apply interest_only_opp_rate | apply conventional_opp_principal].
Qed.

(** X2: when the interest-only payment of a loan is above zero and the
    call returns the text [s] after its prefix, the call for the negated
    principal, and the call for the negated rate, return the same text with
    a minus sign before it. *)
Theorem negated_interest_only_text (l : Loan) (w : world) (s : string) :
  above_zero (interestOnlyPaymentValue (principle l) (interest l)) = true ->
  result (calculateInterestOnlyLoanPayment l) w
  = Normal ("The interest only loan payment is " ++ s) ->
  result (calculateInterestOnlyLoanPayment
            {| principle := SFopp (principle l); interest := interest l |}) w
  = Normal ("The interest only loan payment is -" ++ s) /\
  result (calculateInterestOnlyLoanPayment
            {| principle := principle l; interest := SFopp (interest l) |}) w
  = Normal ("The interest only loan payment is -" ++ s).
Proof.
  intros Hpos Htext. apply interest_only_text_inv in Htext.
  pose proof (toFixed_opp _ s Hpos Htext) as Hneg.
  pose proof (interest_only_opp_principal (principle l) (interest l)) as Hp.
  pose proof (interest_only_opp_rate (principle l) (interest l)) as Hr.
  split; unfold result.
  - rewrite (interest_only_unfold _ w ("-" ++ s)); [reflexivity |].
    cbn [principle interest]. rewrite Hp. exact Hneg.
  - rewrite (interest_only_unfold _ w ("-" ++ s)); [reflexivity |].
    cbn [principle interest]. rewrite Hr. exact Hneg.
Qed.

(** X3: when the conventional payment of a loan is above zero and the call
    returns the text [s] after its prefix, the call for the negated
    principal returns the same text with a minus sign before it. *)
Theorem negated_conventional_text (l : ConventionalLoan) (w : world) (s : string) :
  above_zero (conventionalPaymentValue (principle l) (interest l) (months l)) = true ->
  result (calculateConventionalLoanPayment l) w
  = Normal ("The conventional loan payment is " ++ s) ->
  result (calculateConventionalLoanPayment
            {| loan := {| principle := SFopp (principle l); interest := interest l |};
               months := months l |}) w
  = Normal ("The conventional loan payment is -" ++ s).
Proof.
  intros Hpos Htext. apply conventional_text_inv in Htext.
  pose proof (toFixed_opp _ s Hpos Htext) as Hneg.
  pose proof (conventional_opp_principal (principle l) (interest l) (months l)) as Hp.
  unfold result. rewrite (conventional_text_normal _ w ("-" ++ s)); [reflexivity |].
  cbn [principle interest months loan]. rewrite Hp. exact Hneg.
Qed.

End Negation.

Lemma negated_interest_only_text_witness :
  result (calculateInterestOnlyLoanPayment (E := Sample.engine)
            {| principle := SFopp (of_Z 30000); interest := of_Z 5 |}) empty_world
  = Normal "The interest only loan payment is -125.00" /\
  result (calculateInterestOnlyLoanPayment (E := Sample.engine)
            {| principle := of_Z 30000; interest := SFopp (of_Z 5) |}) empty_world
  = Normal "The interest only loan payment is -125.00".
Proof.
  apply (negated_interest_only_text (E := Sample.engine)
           {| principle := of_Z 30000; interest := of_Z 5 |} empty_world "125.00").
  - vm_compute. reflexivity.
  - vm_compute. reflexivity.
Defined.

Lemma negated_conventional_text_witness :
  result (calculateConventionalLoanPayment (E := Sample.engine)
            {| loan := {| principle := SFopp (of_Z 1200); interest := of_Z 12 |};
               months := of_Z 2 |}) empty_world
  = Normal "The conventional loan payment is -609.01".
Proof.
  apply (negated_conventional_text (E := Sample.engine)
           {| loan := {| principle := of_Z 1200; interest := of_Z 12 |};
              months := of_Z 2 |} empty_world "609.01").
  - vm_compute. reflexivity.
  - vm_compute. reflexivity.
Defined.

(** ** NaN and a term of zero months *)

Section EdgeInputs.
Context {E : Engine}.

(** X4: a principal or a rate that is NaN makes both calls return their
    prefix followed by NaN, whatever the other fields are and whatever
    [Math.pow] returns. *)
Theorem nan_input_text (l : ConventionalLoan) (w : world) :
  principle l = S754_nan \/ interest l = S754_nan ->
  result (calculateInterestOnlyLoanPayment l) w
  = Normal "The interest only loan payment is NaN" /\
  result (calculateConventionalLoanPayment l) w
  = Normal "The conventional loan payment is NaN".
Proof.
  intros Hnan.
  assert (Hnum : mul (principle l) (div (interest l) (of_Z 1200)) = S754_nan).
  { destruct Hnan as [-> | ->]; [reflexivity |].
    unfold div. cbn [SFdiv]. unfold mul. destruct (principle l); reflexivity. }
  split; unfold result.
  - rewrite (interest_only_unfold _ w "NaN"); [reflexivity |].
    unfold interestOnlyPaymentValue. cbn [ndiv nmul lit binary64].
    rewrite Hnum. reflexivity.
  - rewrite (conventional_text_normal _ w "NaN"); [reflexivity |].
    unfold conventionalPaymentValue. cbn [ndiv nmul nsub nadd npow lit binary64].
    rewrite Hnum. reflexivity.
Qed.

(** X5: for a term of zero months, on an engine whose [Math.pow] returns 1
    for a zero exponent, the divisor is +0: the call returns Infinity when
    principal times monthly rate is a positive number, and NaN when it is
    zero. *)
Theorem zero_months_text (l : ConventionalLoan) (w : world) :
  zero_exponent_gives_one ->
  is_zero (months l) = true ->
  conventionalDenominator (interest l) (months l) = S754_zero false /\
  (is_positive (interestOnlyPaymentValue (principle l) (interest l)) = true ->
   conventionalPaymentValue (principle l) (interest l) (months l) = S754_infinity false /\
   result (calculateConventionalLoanPayment l) w
   = Normal "The conventional loan payment is Infinity") /\
  (is_zero (interestOnlyPaymentValue (principle l) (interest l)) = true ->
   conventionalPaymentValue (principle l) (interest l) (months l) = S754_nan /\
   result (calculateConventionalLoanPayment l) w
   = Normal "The conventional loan payment is NaN").
Proof.
  intros Hpow Hm.
  unfold conventionalDenominator, conventionalPaymentValue, interestOnlyPaymentValue.
  cbn [ndiv nmul nsub nadd npow lit binary64].
  rewrite (Hpow _ _ Hm), one_minus_one.
  split; [reflexivity |]. split; intros HN.
  - assert (Hv : div (mul (principle l) (div (interest l) (of_Z 1200))) (S754_zero false)
                 = S754_infinity false).
    { destruct (mul _ _) as [| | | [] m e]; try discriminate. reflexivity. }
    split; [exact Hv |]. unfold result.
    rewrite (conventional_text_normal _ w "Infinity"); [reflexivity |].
    unfold conventionalPaymentValue. cbn [ndiv nmul nsub nadd npow lit binary64].
    rewrite (Hpow _ _ Hm), one_minus_one, Hv. reflexivity.
  - assert (Hv : div (mul (principle l) (div (interest l) (of_Z 1200))) (S754_zero false)
                 = S754_nan).
    { destruct (mul _ _) as [| | | ]; try discriminate. reflexivity. }
    split; [exact Hv |]. unfold result.
    rewrite (conventional_text_normal _ w "NaN"); [reflexivity |].
    unfold conventionalPaymentValue. cbn [ndiv nmul nsub nadd npow lit binary64].
    rewrite (Hpow _ _ Hm), one_minus_one, Hv. reflexivity.
Qed.

(** ** The script *)

(** X6: on every engine the script completes normally and appends exactly
    two lines to the console, in the order of the two [console.log] calls:
    the interest-only line, which is always the announced one, then the
    conventional line, which is the announced one when [Math.pow] is
    accurate at its call. *)
Theorem script_output (w : world) :
  exists t,
    main w = (Normal tt,
              {| console := app (console w)
                                ["The interest only loan payment is 125.00";
                                 "The conventional loan payment is " ++ t] |}) /\
    (pow_accurate_on_sample -> t = "237.24").
Proof.
  pose (l := {| loan := {| principle := of_Z 30000; interest := of_Z 5 |};
                months := of_Z 180 |}).
  destruct (toFixed_2_normal
              (conventionalPaymentValue (principle l) (interest l) (months l)))
    as [t Ht].
  pose proof (conventional_text_normal l w t Ht) as Hrun.
  change (calculateConventionalLoanPayment l) with conventionalPayment in Hrun.
  exists t. split.
  - unfold main, bind. rewrite interest_only_sample_run, Hrun.
    unfold console_log. cbn [console]. now rewrite <- app_assoc.
  - intros Hacc. rewrite (conventional_sample_run w Hacc) in Hrun.
    injection Hrun as Hrun. now subst.
Qed.

End EdgeInputs.

Lemma sample_zero_exponent : zero_exponent_gives_one (E := Sample.engine).
Proof. intros b [s | s | | s m e] Hz; try discriminate. reflexivity. Qed.

Lemma nan_input_text_witness :
  result (calculateInterestOnlyLoanPayment (E := Sample.engine)
            {| principle := S754_nan; interest := of_Z 5 |}) empty_world
  = Normal "The interest only loan payment is NaN" /\
  result (calculateConventionalLoanPayment (E := Sample.engine)
            {| loan := {| principle := S754_nan; interest := of_Z 5 |};
               months := of_Z 180 |}) empty_world
  = Normal "The conventional loan payment is NaN".
Proof.
  apply (nan_input_text (E := Sample.engine)
           {| loan := {| principle := S754_nan; interest := of_Z 5 |};
              months := of_Z 180 |} empty_world).
  left. reflexivity.
Defined.

Lemma zero_months_text_witness :
  result (calculateConventionalLoanPayment (E := Sample.engine)
            {| loan := {| principle := of_Z 30000; interest := of_Z 5 |};
               months := of_Z 0 |}) empty_world
  = Normal "The conventional loan payment is Infinity".
Proof.
  apply (zero_months_text (E := Sample.engine)
           {| loan := {| principle := of_Z 30000; interest := of_Z 5 |};
              months := of_Z 0 |} empty_world).
  - exact sample_zero_exponent.
  - reflexivity.
  - vm_compute. reflexivity.
Defined.

(** ** Correct rounding

    The operations round the exact result to the nearest number of the
    format, ties to even, and the result is in canonical form. *)

Lemma nearest_ext (A A' P P' : Q) (ev up : bool) (X X' : Q) :
  (A == A')%Q -> (P == P')%Q -> (X == X')%Q ->
  nearest A P ev up X -> nearest A' P' ev up X'.
Proof.
  unfold nearest. intros HA HP HX [Hin Hdir]. split; [lra |].
  destruct up; destruct Hdir as [Hle Htie]; (split; [lra |]);
    intros Heq; apply Htie; lra.
Qed.

Lemma nearest_scale (A P : Q) (ev up : bool) (X S : Q) :
  (0 < S)%Q -> nearest A P ev up X -> nearest (A * S) (P * S) ev up (X * S).
Proof.
  intros HS [[Hlo Hhi] Hdir].
  assert (Hmid : (A * S + (1 # 2) * (P * S) == (A + (1 # 2) * P) * S)%Q) by ring.
  assert (Hup : (A * S + P * S == (A + P) * S)%Q) by ring.
  assert (HS0 : ~ (S == 0)%Q) by lra.
  unfold nearest. split.
  - split; [now apply Qmult_le_r | rewrite Hup; now apply Qmult_lt_r].
  - destruct up; destruct Hdir as [Hle Htie]; split.
    + rewrite Hmid. now apply Qmult_le_r.
    + intros Heq. apply Htie. rewrite Hmid in Heq.
      now apply (Qmult_inj_r _ _ S HS0).
    + rewrite Hmid. now apply Qmult_le_r.
    + intros Heq. apply Htie. rewrite Hmid in Heq.
      now apply (Qmult_inj_r _ _ S HS0).
Qed.

(** Rounding to nearest, ties to even, of a located value. *)
Lemma round_nearest_even_nearest (k : Z) (mrs : shr_record) (x : Q) :
  0 <= k -> located k mrs x ->
  exists up,
    round_nearest_even (shr_m mrs) (loc_of_shr_record mrs) = round_up (shr_m mrs) up /\
    nearest (inject_Z (shr_m mrs * 2 ^ k)) (inject_Z (2 ^ k)) (Z.even (shr_m mrs)) up x.
Proof.
  intros Hk [Hm Hx].
  pose proof (pow2_Q_pos k Hk) as HP.
  destruct mrs as [m r s]. cbn [shr_m shr_r shr_s] in *.
  unfold loc in Hx. unfold nearest.
  set (L := inject_Z (m * 2 ^ k)) in *. clearbody L.
  set (P := inject_Z (2 ^ k)) in *. clearbody P.
  destruct r, s; cbn [loc_of_shr_record round_nearest_even].
  - exists true. split; [reflexivity |]. split; [lra |]. split; [lra |]. intros; lra.
  - destruct (Z.even m) eqn:Hev.
    + exists false. split; [reflexivity |]. split; [lra |]. split; [lra |]. trivial.
    + exists true. split; [reflexivity |]. split; [lra |]. split; [lra |]. trivial.
  - exists false. split; [reflexivity |]. split; [lra |]. split; [lra |]. intros; lra.
  - exists false. split; [reflexivity |]. split; [lra |]. split; [lra |]. intros; lra.
Qed.

Lemma pow2_prec : 2 ^ prec = 2 * 2 ^ (prec - 1).
Proof. reflexivity. Qed.

Lemma Zdigits2_lower (q t : Z) : 0 <= t -> 2 ^ t <= q -> t + 1 <= Zdigits2 q.
Proof.
  intros Ht Hq.
  assert (Hq0 : 0 <= q) by (pose proof (Z.pow_pos_nonneg 2 t); lia).
  pose proof (Zdigits2_upper q Hq0) as Hup.
  assert (Hd : 0 <= Zdigits2 q) by (destruct q; cbn; lia).
  assert (Hlt : 2 ^ t < 2 ^ Zdigits2 q) by lia.
  apply Z.pow_lt_mono_r_iff in Hlt; lia.
Qed.

(** [binary_round_aux] on a significand that is not shorter than the
    format asks for: the result is the rounding of the exact value to
    nearest, ties to even, in canonical form. *)
Lemma binary_round_aux_rounds_to (sx : bool) (mx ex : Z) (lx : location) (x : Q) :
  0 <= mx ->
  located 0 (shr_record_of_loc mx lx) x ->
  ex <= fexp prec emax (Zdigits2 mx + ex) ->
  exists m g up,
    rounds_to (x * 2 ^ ex) m g up /\
    binary_round_aux prec emax sx mx ex lx = carried sx (round_up m up) g.
Proof.
  intros Hmx Hloc Hshift.
  pose proof (shr_record_of_loc_m mx lx) as Hrec.
  unfold binary_round_aux, shr_fexp.
  set (n1 := fexp prec emax (Zdigits2 mx + ex) - ex).
  assert (Hn1 : 0 <= n1) by (subst n1; lia).
  destruct (shr_located (shr_record_of_loc mx lx) ex n1 x Hloc)
    as (k1 & Hk1 & He' & Hloc1).
  destruct (shr (shr_record_of_loc mx lx) ex n1) as [mrs' e'].
  cbn [fst snd] in He', Hloc1.
  assert (Hk : k1 = n1) by lia.
  assert (Hk1pos : 0 <= k1) by lia.
  destruct (round_nearest_even_nearest k1 mrs' x Hk1pos Hloc1) as (up & Hm1 & Hnear).
  rewrite Hm1.
  set (m' := shr_m mrs') in *.
  pose proof (fexp_lower (Zdigits2 mx + ex)) as [Hfexp1 Hfexp2].
  assert (Hemin : emin prec emax <= e') by lia.
  assert (Hm'pos : 0 <= m') by apply Hloc1.
  assert (Hpk : 0 < 2 ^ k1) by (apply Z.pow_pos_nonneg; lia).
  destruct (located_bounds k1 mrs' x Hk1pos Hloc1) as [Hlo1 Hhi1].
  destruct (located_bounds 0 _ x (Z.le_refl 0) Hloc) as [Hlo0 Hhi0].
  rewrite Hrec, Z.pow_0_r in Hlo0, Hhi0. fold m' in Hlo1, Hhi1.
  assert (Hlt : m' * 2 ^ k1 < (mx + 1) * 1).
  { rewrite Zlt_Qlt. eapply Qle_lt_trans; eassumption. }
  assert (Hgt : mx * 1 < (m' + 1) * 2 ^ k1).
  { rewrite Zlt_Qlt. eapply Qle_lt_trans; eassumption. }
  assert (Hdn : 0 <= Zdigits2 mx) by (destruct mx; cbn; lia).
  assert (Hm' : m' < 2 ^ prec).
  { pose proof (Zdigits2_upper mx Hmx) as Hd.
    assert (Hpow : 2 ^ Zdigits2 mx <= 2 ^ (prec + k1))
      by (apply Z.pow_le_mono_r; lia).
    rewrite Z.pow_add_r in Hpow by (unfold prec; lia).
    nia. }
  assert (Hcan : canonical m' e').
  { split; [lia |]. split; [exact Hemin |].
    destruct (Z.eq_dec e' (emin prec emax)) as [He | He]; [now right | left].
    assert (Hkd : k1 = Zdigits2 mx - prec) by (unfold fexp in *; lia).
    destruct mx as [| p | p]; [cbn in Hkd; unfold prec in Hkd; lia | | lia].
    pose proof (digits2_pos_bounds p) as [Hlow _].
    cbn [Zdigits2] in Hkd.
    replace (Zpos (digits2_pos p) - 1) with (prec - 1 + k1) in Hlow by lia.
    rewrite Z.pow_add_r in Hlow by (unfold prec; lia).
    nia. }
  exists m', e', up. split.
  - split; [exact Hcan |].
    apply (nearest_scale _ _ _ _ _ (2 ^ ex)%Q (pow2_Q_gt0 ex)) in Hnear.
    eapply nearest_ext; [| | reflexivity | exact Hnear].
    + rewrite He'. now apply shift_value.
    + rewrite He', pow2_Q, <- Qpower_plus by (lia || discriminate).
      now rewrite Z.add_comm.
  - unfold carried, carry.
    assert (Hr : round_up m' up <= 2 ^ prec) by (destruct up; cbn [round_up]; lia).
    assert (Hr0 : m' <= round_up m' up) by (destruct up; cbn [round_up]; lia).
    destruct (Z.eqb_spec (round_up m' up) (2 ^ prec)) as [Hcarry | Hsmall];
      cbn [fst snd].
    + rewrite Hcarry.
      assert (Hd : Zdigits2 (2 ^ prec) = prec + 1) by (vm_compute; reflexivity).
      replace (fexp prec emax (Zdigits2 (2 ^ prec) + e') - e') with 1
        by (rewrite Hd; unfold fexp; lia).
      cbn [shr shr_record_of_loc].
      change (shr_m (iter_pos shr_1 1 {| shr_m := 2 ^ prec; shr_r := false; shr_s := false |}))
        with (2 ^ (prec - 1)).
      reflexivity.
    + assert (Hd1 : Zdigits2 (round_up m' up) <= prec).
      { apply Zdigits2_le; [unfold prec; lia | lia]. }
      rewrite shr_no_shift by (pose proof (fexp_short _ e' Hd1 Hemin); lia).
      cbn [shr_m shr_record_of_loc]. reflexivity.
Qed.

(** *** Numbers of the format and their order *)

Lemma dyadic_le (n1 n2 g d : Z) :
  0 <= d -> (inject_Z n1 * 2 ^ (g + d) <= inject_Z n2 * 2 ^ g)%Q <-> n1 * 2 ^ d <= n2.
Proof.
  intros Hd. rewrite <- shift_value by exact Hd.
  rewrite Qmult_le_r by apply pow2_Q_gt0. now rewrite <- Zle_Qle.
Qed.

Lemma dyadic_le_r (n1 n2 g d : Z) :
  0 <= d -> (inject_Z n1 * 2 ^ g <= inject_Z n2 * 2 ^ (g + d))%Q <-> n1 <= n2 * 2 ^ d.
Proof.
  intros Hd. rewrite <- shift_value by exact Hd.
  rewrite Qmult_le_r by apply pow2_Q_gt0. now rewrite <- Zle_Qle.
Qed.

Lemma pow2_ge_2 (d : Z) : 1 <= d -> 2 <= 2 ^ d.
Proof.
  intros Hd. change 2 with (2 ^ 1) at 1. apply Z.pow_le_mono_r; lia.
Qed.

Lemma carry_canonical (m g : Z) (up : bool) :
  canonical m g ->
  canonical (fst (carry (round_up m up) g)) (snd (carry (round_up m up) g)).
Proof.
  intros (Hm & Hg & Hn). unfold carry.
  destruct (Z.eqb_spec (round_up m up) (2 ^ prec)) as [Hc | Hc]; cbn [fst snd].
  - split; [unfold prec; lia |]. split; [lia |]. left. lia.
  - assert (Hr : m <= round_up m up <= m + 1) by (destruct up; cbn [round_up]; lia).
    split; [lia |]. split; [exact Hg |]. destruct Hn as [Hn | Hn]; [left; lia | now right].
Qed.

Lemma carry_value (n g : Z) :
  (inject_Z (fst (carry n g)) * 2 ^ snd (carry n g) == inject_Z n * 2 ^ g)%Q.
Proof.
  unfold carry. destruct (Z.eqb_spec n (2 ^ prec)) as [-> | Hc]; cbn [fst snd];
    [| reflexivity].
  rewrite pow2_prec, <- (shift_value _ 1 g) by lia.
  rewrite Z.mul_comm. reflexivity.
Qed.

(** Numbers in canonical form are ordered by their exponents first. *)
Lemma value_le_exponent (n1 g1 n2 g2 : Z) :
  canonical n1 g1 -> canonical n2 g2 -> 0 < n1 ->
  (inject_Z n1 * 2 ^ g1 <= inject_Z n2 * 2 ^ g2)%Q ->
  g1 < g2 \/ (g1 = g2 /\ n1 <= n2).
Proof.
  intros (Hn1 & Hg1 & Hc1) (Hn2 & Hg2 & Hc2) Hpos Hle.
  destruct (Z.lt_trichotomy g1 g2) as [Hlt | [Heq | Hgt]]; [now left | right | exfalso].
  - split; [exact Heq |]. subst g2.
    rewrite <- (Z.add_0_r g1) in Hle at 1. apply dyadic_le in Hle; lia.
  - replace g1 with (g2 + (g1 - g2)) in Hle by lia.
    apply dyadic_le in Hle; [| lia].
    pose proof (pow2_ge_2 (g1 - g2) ltac:(lia)) as Hp.
    pose proof pow2_prec. nia.
Qed.

Lemma leb_rounded (n1 g1 n2 g2 : Z) :
  canonical n1 g1 -> canonical n2 g2 ->
  (inject_Z n1 * 2 ^ g1 <= inject_Z n2 * 2 ^ g2)%Q ->
  leb (rounded false n1 g1) (rounded false n2 g2) = true.
Proof.
  intros Hc1 Hc2 Hle.
  destruct n1 as [| p1 | p1]; [| | destruct Hc1 as ([? _] & _); lia].
  - cbn [rounded].
    destruct n2 as [| p2 | p2]; [reflexivity | | destruct Hc2 as ([? _] & _); lia].
    cbn [rounded]. destruct (g2 <=? emax - prec); reflexivity.
  - destruct n2 as [| p2 | p2]; [| | destruct Hc2 as ([? _] & _); lia].
    + exfalso. rewrite Qmult_0_l in Hle.
      assert (0 < inject_Z (Zpos p1) * 2 ^ g1)%Q
        by (apply Qmult_lt_0_compat; [reflexivity | apply pow2_Q_gt0]).
      lra.
    + destruct (value_le_exponent _ _ _ _ Hc1 Hc2 ltac:(lia) Hle) as [Hlt | [Heq Hm]];
        cbn [rounded].
      * destruct (Z.leb_spec g1 (emax - prec)), (Z.leb_spec g2 (emax - prec));
          try reflexivity; [| lia].
        unfold leb, SFleb, SFcompare.
        now rewrite (proj2 (Z.compare_lt_iff g1 g2) Hlt).
      * subst g2. destruct (g1 <=? emax - prec); [| reflexivity].
        unfold leb, SFleb, SFcompare. rewrite Z.compare_refl.
        change (Pos.compare_cont Eq p1 p2) with (Pos.compare p1 p2).
        destruct (Pos.compare_spec p1 p2); try reflexivity. lia.
Qed.

Lemma valid_canonical (s : bool) (m : positive) (e : Z) :
  valid_binary prec emax (S754_finite s m e) = true ->
  canonical (Zpos m) e /\ e <= emax - prec.
Proof.
  cbn [valid_binary]. unfold bounded, canonical_mantissa.
  intros H. apply andb_prop in H. destruct H as [Hc Hb].
  apply Z.eqb_eq in Hc. apply Z.leb_le in Hb.
  split; [| exact Hb].
  pose proof (digits2_pos_bounds m) as [Hlo Hhi].
  set (d := Zpos (digits2_pos m)) in *.
  assert (Hd : d <= prec) by (unfold fexp in Hc; lia).
  assert (Hp : 2 ^ d <= 2 ^ prec) by (apply Z.pow_le_mono_r; lia).
  split; [lia |]. split; [unfold fexp in Hc; lia |].
  destruct (Z.eq_dec e (emin prec emax)) as [He | He]; [now right | left].
  assert (d = prec) by (unfold fexp in Hc; lia).
  replace (prec - 1) with (d - 1) by lia. exact Hlo.
Qed.

Lemma rounded_valid (sx : bool) (n g : Z) :
  canonical n g -> valid_binary prec emax (rounded sx n g) = true.
Proof.
  intros (Hn & Hg & Hc). destruct n as [| p | p]; cbn [rounded]; try reflexivity.
  destruct (Z.leb_spec g (emax - prec)) as [Hb | Hb]; [| reflexivity].
  cbn [valid_binary]. unfold bounded, canonical_mantissa.
  apply andb_true_intro. split; [| now apply Z.leb_le].
  apply Z.eqb_eq.
  assert (Hd : Zdigits2 (Zpos p) <= prec) by (apply Zdigits2_le; [unfold prec; lia | lia]).
  cbn [Zdigits2] in Hd.
  destruct Hc as [Hc | Hc].
  - pose proof (Zdigits2_lower (Zpos p) (prec - 1) ltac:(unfold prec; lia) Hc) as Hl.
    cbn [Zdigits2] in Hl. unfold fexp. lia.
  - unfold fexp. lia.
Qed.

(** The order of JavaScript on two positive numbers is the order of
    their values. *)
Lemma leb_value (a b : number) :
  is_positive a = true -> is_positive b = true ->
  valid_binary prec emax a = true -> valid_binary prec emax b = true ->
  leb a b = true -> (to_Q a <= to_Q b)%Q.
Proof.
  destruct a as [| | | [] ma ea]; try discriminate.
  destruct b as [| | | [] mb eb]; try discriminate.
  intros _ _ Ha Hb.
  destruct (valid_canonical _ _ _ Ha) as [(Hma & Hea & Hca) _].
  destruct (valid_canonical _ _ _ Hb) as [(Hmb & Heb & Hcb) _].
  rewrite !to_Q_positive.
  unfold leb, SFleb, SFcompare.
  destruct (Z.compare_spec ea eb) as [Heq | Hlt | Hgt]; [| intros _ | discriminate].
  - subst eb. change (Pos.compare_cont Eq ma mb) with (Pos.compare ma mb).
    destruct (Pos.compare_spec ma mb) as [Hm | Hm | Hm]; try discriminate; intros _;
      (rewrite Qmult_le_r by apply pow2_Q_gt0); rewrite <- Zle_Qle; lia.
  - replace eb with (ea + (eb - ea)) by lia. apply dyadic_le_r; [lia |].
    pose proof (pow2_ge_2 (eb - ea) ltac:(lia)) as Hp.
    pose proof pow2_prec. nia.
Qed.

(** *** Rounding is monotone *)

Lemma grid_point (m d n d' : Z) :
  0 <= d -> 0 <= d' -> 0 <= m -> 0 <= n <= 2 ^ prec ->
  d <= d' \/ 2 ^ (prec - 1) <= m ->
  ~ (m * 2 ^ d < n * 2 ^ d' < (m + 1) * 2 ^ d).
Proof.
  intros Hd Hd' Hm Hn Hc [Hlo Hhi].
  assert (Hp : 0 < 2 ^ d) by (apply Z.pow_pos_nonneg; lia).
  assert (Hp' : 0 < 2 ^ d') by (apply Z.pow_pos_nonneg; lia).
  destruct (Z_le_gt_dec d d') as [Hle | Hgt].
  - replace d' with (d' - d + d) in Hlo, Hhi by lia.
    rewrite Z.pow_add_r in Hlo, Hhi by lia.
    set (q := n * 2 ^ (d' - d)) in *.
    rewrite Z.mul_assoc in Hlo, Hhi. fold q in Hlo, Hhi.
    apply Z.mul_lt_mono_pos_r in Hlo, Hhi; lia.
  - destruct Hc as [Hc | Hc]; [lia |].
    replace d with (d - d' + d') in Hlo by lia.
    rewrite Z.pow_add_r in Hlo by lia.
    pose proof (pow2_ge_2 (d - d') ltac:(lia)) as H2.
    set (t := 2 ^ (d - d')) in *.
    rewrite Z.mul_assoc in Hlo. apply Z.mul_lt_mono_pos_r in Hlo; [| exact Hp'].
    pose proof pow2_prec. nia.
Qed.

Lemma nearest_mono_Z (m d m' d' : Z) (up up' : bool) (xi eta : Q) :
  0 <= d -> 0 <= d' ->
  0 <= m < 2 ^ prec -> 0 <= m' < 2 ^ prec ->
  d <= d' \/ 2 ^ (prec - 1) <= m ->
  d' <= d \/ 2 ^ (prec - 1) <= m' ->
  nearest (inject_Z (m * 2 ^ d)) (inject_Z (2 ^ d)) (Z.even m) up xi ->
  nearest (inject_Z (m' * 2 ^ d')) (inject_Z (2 ^ d')) (Z.even m') up' eta ->
  (xi <= eta)%Q ->
  round_up m up * 2 ^ d <= round_up m' up' * 2 ^ d'.
Proof.
  intros Hd Hd' Hm Hm' Hc Hc' [[Hlo Hhi] Hdir] [[Hlo' Hhi'] Hdir'] Hle.
  pose proof (grid_point m d m' d' Hd Hd' ltac:(lia) ltac:(lia) Hc) as G1.
  pose proof (grid_point m d (m' + 1) d' Hd Hd' ltac:(lia) ltac:(lia) Hc) as G2.
  pose proof (grid_point m' d' m d Hd' Hd ltac:(lia) ltac:(lia) Hc') as G3.
  pose proof (grid_point m' d' (m + 1) d Hd' Hd ltac:(lia) ltac:(lia) Hc') as G4.
  assert (Hp : 0 < 2 ^ d) by (apply Z.pow_pos_nonneg; lia).
  assert (Hp' : 0 < 2 ^ d') by (apply Z.pow_pos_nonneg; lia).
  rewrite !Z.mul_add_distr_r, !Z.mul_1_l in G1, G2, G3, G4.
  assert (Hr : round_up m up * 2 ^ d <= m * 2 ^ d + 2 ^ d)
    by (destruct up; cbn [round_up]; lia).
  assert (Hr' : m' * 2 ^ d' <= round_up m' up' * 2 ^ d')
    by (destruct up'; cbn [round_up]; lia).
  assert (Hcross : m * 2 ^ d < m' * 2 ^ d' + 2 ^ d').
  { rewrite Zlt_Qlt, inject_Z_plus. lra. }
  destruct (Z_le_gt_dec (m * 2 ^ d + 2 ^ d) (m' * 2 ^ d')) as [Hfar | Hnear]; [lia |].
  assert (Ha : m * 2 ^ d = m' * 2 ^ d') by lia.
  assert (Hpp : 2 ^ d = 2 ^ d') by lia.
  assert (Hmm : m = m') by (rewrite Hpp in Ha; nia).
  subst m'. rewrite <- Hpp in *.
  destruct up, up'; cbn [round_up]; try lia.
  exfalso. destruct Hdir as [Hge Htie], Hdir' as [Hle' Htie'].
  assert (E1 : (xi == inject_Z (m * 2 ^ d) + (1 # 2) * inject_Z (2 ^ d))%Q) by lra.
  assert (E2 : (eta == inject_Z (m * 2 ^ d) + (1 # 2) * inject_Z (2 ^ d))%Q) by lra.
  specialize (Htie E1). specialize (Htie' E2). congruence.
Qed.

Lemma rounds_to_scaled (X : Q) (m g : Z) (up : bool) (b : Z) :
  b <= g -> rounds_to X m g up ->
  nearest (inject_Z (m * 2 ^ (g - b))) (inject_Z (2 ^ (g - b))) (Z.even m) up
          (X * 2 ^ (- b)).
Proof.
  intros Hb [_ Hnear].
  apply (nearest_scale _ _ _ _ _ (2 ^ (- b))%Q (pow2_Q_gt0 (- b))) in Hnear.
  eapply nearest_ext; [| | reflexivity | exact Hnear].
  - rewrite inject_Z_mult, pow2_Q by lia.
    rewrite <- Qmult_assoc, <- Qpower_plus by discriminate.
    now replace (g + - b) with (g - b) by lia.
  - rewrite pow2_Q, <- Qpower_plus by (lia || discriminate).
    now replace (g + - b) with (g - b) by lia.
Qed.

(** A larger value never rounds to a smaller number. *)
Lemma rounds_to_mono (X Y : Q) (m g : Z) (up : bool) (m' g' : Z) (up' : bool) :
  rounds_to X m g up -> rounds_to Y m' g' up' -> (X <= Y)%Q ->
  (inject_Z (round_up m up) * 2 ^ g <= inject_Z (round_up m' up') * 2 ^ g')%Q.
Proof.
  intros HX HY Hle.
  set (b := Z.min g g').
  assert (Hb : b <= g) by (subst b; lia).
  assert (Hb' : b <= g') by (subst b; lia).
  pose proof (rounds_to_scaled X m g up b Hb HX) as HnX.
  pose proof (rounds_to_scaled Y m' g' up' b Hb' HY) as HnY.
  destruct HX as [(Hm & Hg & Hc) _], HY as [(Hm' & Hg' & Hc') _].
  assert (Hs : (X * 2 ^ (- b) <= Y * 2 ^ (- b))%Q)
    by (apply Qmult_le_r; [apply pow2_Q_gt0 | exact Hle]).
  pose proof (nearest_mono_Z m (g - b) m' (g' - b) up up' _ _
                ltac:(lia) ltac:(lia) Hm Hm' ltac:(lia) ltac:(lia) HnX HnY Hs) as HZ.
  rewrite Zle_Qle in HZ.
  apply (Qmult_le_r _ _ (2 ^ b)%Q (pow2_Q_gt0 b)) in HZ.
  rewrite !shift_value in HZ by lia.
  now replace (b + (g - b)) with g in HZ by lia;
    replace (b + (g' - b)) with g' in HZ by lia.
Qed.

Lemma rounds_to_exact (m g : Z) :
  canonical m g -> rounds_to (inject_Z m * 2 ^ g) m g false.
Proof.
  intros Hc. split; [exact Hc |]. pose proof (pow2_Q_gt0 g) as HP.
  unfold nearest. set (A := (inject_Z m * 2 ^ g)%Q). clearbody A.
  set (P := (2 ^ g)%Q) in *. clearbody P.
  split; [lra |]. split; [lra |]. intros; lra.
Qed.

Lemma rounds_to_ext (X X' : Q) (m g : Z) (up : bool) :
  (X == X')%Q -> rounds_to X m g up -> rounds_to X' m g up.
Proof.
  intros HX [Hc Hn]. split; [exact Hc |].
  eapply nearest_ext; [reflexivity | reflexivity | exact HX | exact Hn].
Qed.

(** Two roundings of the same value are the same number. *)
Lemma rounds_to_unique (X : Q) (m g : Z) (up : bool) (m' g' : Z) (up' : bool) :
  rounds_to X m g up -> rounds_to X m' g' up' ->
  (inject_Z (round_up m up) * 2 ^ g == inject_Z (round_up m' up') * 2 ^ g')%Q.
Proof.
  intros H H'. apply Qle_antisym; eapply rounds_to_mono; eauto; apply Qle_refl.
Qed.

Lemma canonical_unique (n1 g1 n2 g2 : Z) :
  canonical n1 g1 -> canonical n2 g2 -> 0 < n1 ->
  (inject_Z n1 * 2 ^ g1 == inject_Z n2 * 2 ^ g2)%Q ->
  n1 = n2 /\ g1 = g2.
Proof.
  intros Hc1 Hc2 Hpos Heq.
  assert (Hpos2 : 0 < n2).
  { destruct (Z_lt_le_dec 0 n2) as [H | H]; [exact H | exfalso].
    assert (H1 : (0 < inject_Z n1 * 2 ^ g1)%Q).
    { apply Qmult_lt_0_compat; [| apply pow2_Q_gt0].
      change 0%Q with (inject_Z 0). now rewrite <- Zlt_Qlt. }
    assert (H2 : (inject_Z n2 * 2 ^ g2 <= 0)%Q).
    { rewrite <- (Qmult_0_l (2 ^ g2)). apply Qmult_le_compat_r;
        [| apply Qlt_le_weak, pow2_Q_gt0].
      change 0%Q with (inject_Z 0). now rewrite <- Zle_Qle. }
    lra. }
  assert (H12 : (inject_Z n1 * 2 ^ g1 <= inject_Z n2 * 2 ^ g2)%Q) by lra.
  assert (H21 : (inject_Z n2 * 2 ^ g2 <= inject_Z n1 * 2 ^ g1)%Q) by lra.
  pose proof (value_le_exponent _ _ _ _ Hc1 Hc2 Hpos H12).
  pose proof (value_le_exponent _ _ _ _ Hc2 Hc1 Hpos2 H21).
  lia.
Qed.

(** *** Products and quotients *)

Lemma digits_product (ma mb : positive) :
  Zpos (digits2_pos ma) + Zpos (digits2_pos mb) - 1 <= Zdigits2 (Zpos (ma * mb)).
Proof.
  pose proof (digits2_pos_bounds ma) as [Ha _].
  pose proof (digits2_pos_bounds mb) as [Hb _].
  set (da := Zpos (digits2_pos ma)) in *. set (db := Zpos (digits2_pos mb)) in *.
  assert (Hda : 1 <= da) by (subst da; lia).
  assert (Hdb : 1 <= db) by (subst db; lia).
  assert (Hl : da + db - 2 + 1 <= Zdigits2 (Zpos (ma * mb))).
  { apply Zdigits2_lower; [lia |].
    replace (da + db - 2) with ((da - 1) + (db - 1)) by lia.
    rewrite Z.pow_add_r, Pos2Z.inj_mul by lia.
    apply Z.mul_le_mono_nonneg; try assumption; apply Z.pow_nonneg; lia. }
  lia.
Qed.

Lemma canonical_digits (m : positive) (e : Z) :
  canonical (Zpos m) e ->
  Zpos (digits2_pos m) = prec \/ e = emin prec emax.
Proof.
  intros (Hm & He & [Hc | Hc]); [left | now right].
  pose proof (Zdigits2_lower (Zpos m) (prec - 1) ltac:(unfold prec; lia) Hc) as Hl.
  pose proof (Zdigits2_le (Zpos m) prec ltac:(unfold prec; lia) ltac:(lia)) as Hu.
  cbn [Zdigits2] in Hl, Hu. lia.
Qed.

(** The product of two numbers of the format is their exact product
    rounded to nearest, ties to even. *)
Lemma mul_rounds_to (sa : bool) (ma : positive) (ea : Z)
      (sb : bool) (mb : positive) (eb : Z) :
  valid_binary prec emax (S754_finite sa ma ea) = true ->
  valid_binary prec emax (S754_finite sb mb eb) = true ->
  exists m g up,
    rounds_to (inject_Z (Zpos ma) * 2 ^ ea * (inject_Z (Zpos mb) * 2 ^ eb)) m g up /\
    mul (S754_finite sa ma ea) (S754_finite sb mb eb)
    = carried (xorb sa sb) (round_up m up) g.
Proof.
  intros Ha Hb.
  destruct (valid_canonical _ _ _ Ha) as [Hca _].
  destruct (valid_canonical _ _ _ Hb) as [Hcb _].
  pose proof (canonical_digits _ _ Hca) as Hda.
  pose proof (canonical_digits _ _ Hcb) as Hdb.
  destruct Hca as (_ & Hea & _), Hcb as (_ & Heb & _).
  pose proof (digits_product ma mb) as Hd.
  assert (Hda1 : 1 <= Zpos (digits2_pos ma)) by lia.
  assert (Hdb1 : 1 <= Zpos (digits2_pos mb)) by lia.
  assert (Hshift : ea + eb <= fexp prec emax (Zdigits2 (Zpos (ma * mb)) + (ea + eb))).
  { unfold fexp.
    destruct (Z_le_gt_dec (ea + eb) (emin prec emax)) as [Hlow | Hhigh]; [lia |].
    assert (prec <= Zdigits2 (Zpos (ma * mb))); [| lia].
    unfold emin, emax, prec in *. lia. }
  destruct (binary_round_aux_rounds_to (xorb sa sb) (Zpos (ma * mb)) (ea + eb) loc_Exact
              (inject_Z (Zpos (ma * mb))) ltac:(lia) (located_exact (Zpos (ma * mb)) ltac:(lia)) Hshift)
    as (m & g & up & Hr & Heq).
  exists m, g, up. split; [| exact Heq].
  eapply rounds_to_ext; [| exact Hr].
  rewrite Pos2Z.inj_mul, inject_Z_mult, Qpower_plus by discriminate. ring.
Qed.

Lemma div_core_shift (m1 m2 : positive) (e1 e2 : Z) (q e' : Z) (l : location) :
  SFdiv_core_binary prec emax (Zpos m1) e1 (Zpos m2) e2 = (q, e', l) ->
  e' <= fexp prec emax (Zdigits2 q + e').
Proof.
  unfold SFdiv_core_binary.
  set (d1 := Zdigits2 (Zpos m1)). set (d2 := Zdigits2 (Zpos m2)).
  set (e0 := Z.min _ (e1 - e2)).
  assert (He0 : e0 <= e1 - e2) by (subst e0; apply Z.le_min_r).
  assert (He0' : e0 <= fexp prec emax (d1 + e1 - (d2 + e2))) by (subst e0; apply Z.le_min_l).
  set (s := e1 - e2 - e0).
  assert (Hs : 0 <= s) by (subst s; lia).
  assert (Hm' : match s with
                | 0 => Zpos m1
                | Zpos _ => Z.shiftl (Zpos m1) s
                | Zneg _ => 0
                end = Zpos m1 * 2 ^ s).
  { destruct s as [| p | p] eqn:Es; [lia | | lia].
    now rewrite Z.shiftl_mul_pow2 by lia. }
  rewrite Hm'.
  assert (Hpow : 0 < 2 ^ s) by (apply Z.pow_pos_nonneg; lia).
  pose proof (Z_div_mod (Zpos m1 * 2 ^ s) (Zpos m2) ltac:(lia)) as Hdiv.
  destruct (Z.div_eucl (Zpos m1 * 2 ^ s) (Zpos m2)) as [q0 r0].
  destruct Hdiv as [Heq Hr]. intros [= <- <- <-].
  assert (Hq : 0 <= q0) by nia.
  assert (Hdq : 0 <= Zdigits2 q0) by (destruct q0; cbn; lia).
  unfold fexp in *.
  destruct (Z_le_gt_dec e0 (emin prec emax)) as [Hlow | Hhigh]; [lia |].
  pose proof (digits2_pos_bounds m1) as [Hlo1 _].
  pose proof (digits2_pos_bounds m2) as [_ Hhi2].
  fold (Zdigits2 (Zpos m1)) in Hlo1. fold d1 in Hlo1.
  fold (Zdigits2 (Zpos m2)) in Hhi2. fold d2 in Hhi2.
  assert (Hd1 : 1 <= d1) by (subst d1; cbn; lia).
  assert (Hd2 : 1 <= d2) by (subst d2; cbn; lia).
  set (t := d1 - 1 + s - d2).
  assert (Ht : prec - 1 <= t) by (subst t s; lia).
  assert (Hqt : 2 ^ t <= q0).
  { assert (Hsplit : 2 ^ (d1 - 1) * 2 ^ s = 2 ^ t * 2 ^ d2).
    { rewrite <- !Z.pow_add_r by (unfold prec in *; lia). f_equal. subst t. lia. }
    assert (Hnum : 2 ^ t * 2 ^ d2 <= Zpos m1 * 2 ^ s) by (rewrite <- Hsplit; nia).
    assert (Hpt : 0 < 2 ^ t) by (apply Z.pow_pos_nonneg; unfold prec in *; lia).
    nia. }
  pose proof (Zdigits2_lower q0 t ltac:(unfold prec in *; lia) Hqt) as Hl.
  subst t s. lia.
Qed.

(** The quotient of two positive numbers is their exact quotient rounded
    to nearest, ties to even. *)
Lemma div_rounds_to (sa : bool) (ma : positive) (ea : Z)
      (sb : bool) (mb : positive) (eb : Z) :
  exists m g up,
    rounds_to (inject_Z (Zpos ma) * 2 ^ ea / (inject_Z (Zpos mb) * 2 ^ eb)) m g up /\
    div (S754_finite sa ma ea) (S754_finite sb mb eb)
    = carried (xorb sa sb) (round_up m up) g.
Proof.
  destruct (div_core_located ma mb ea eb) as (q & e' & l & Hcore & Hq & He' & Hloc).
  pose proof (div_core_shift _ _ _ _ _ _ _ Hcore) as Hshift.
  destruct (binary_round_aux_rounds_to (xorb sa sb) q e' l _ Hq Hloc Hshift)
    as (m & g & up & Hr & Heq).
  exists m, g, up. split.
  - eapply rounds_to_ext; [| exact Hr].
    rewrite inject_Z_mult, pow2_Q by lia.
    replace ea with ((ea - eb - e') + e' + eb) at 2 by lia.
    rewrite !Qpower_plus by discriminate.
    pose proof (pow2_Q_gt0 eb).
    assert (Hmb : (0 < inject_Z (Zpos mb))%Q) by reflexivity.
    field. split; lra.
  - unfold div. cbn [SFdiv]. rewrite Hcore. exact Heq.
Qed.

Lemma carried_valid (sx : bool) (m g : Z) (up : bool) :
  canonical m g -> valid_binary prec emax (carried sx (round_up m up) g) = true.
Proof. intros Hc. apply rounded_valid. now apply carry_canonical. Qed.

Lemma mul_valid (a b : number) :
  valid_binary prec emax a = true -> valid_binary prec emax b = true ->
  valid_binary prec emax (mul a b) = true.
Proof.
  intros Ha Hb.
  destruct a as [sa | sa | | sa ma ea], b as [sb | sb | | sb mb eb]; try reflexivity.
  destruct (mul_rounds_to sa ma ea sb mb eb Ha Hb) as (m & g & up & [Hc _] & ->).
  now apply carried_valid.
Qed.

Lemma div_valid (a b : number) :
  valid_binary prec emax a = true -> valid_binary prec emax b = true ->
  valid_binary prec emax (div a b) = true.
Proof.
  intros Ha Hb.
  destruct a as [sa | sa | | sa ma ea], b as [sb | sb | | sb mb eb]; try reflexivity.
  destruct (div_rounds_to sa ma ea sb mb eb) as (m & g & up & [Hc _] & ->).
  now apply carried_valid.
Qed.

Lemma leb_carried (m g : Z) (up : bool) (m' g' : Z) (up' : bool) :
  canonical m g -> canonical m' g' ->
  (inject_Z (round_up m up) * 2 ^ g <= inject_Z (round_up m' up') * 2 ^ g')%Q ->
  leb (carried false (round_up m up) g) (carried false (round_up m' up') g') = true.
Proof.
  intros Hc Hc' Hle. unfold carried.
  apply leb_rounded; try now apply carry_canonical.
  now rewrite !carry_value.
Qed.

(** ** Order of the payments *)

Lemma amount_inv (x : number) :
  amount x = true ->
  exists m e, x = S754_finite false m e /\ valid x = true.
Proof.
  unfold amount. intros H. apply andb_prop in H. destruct H as [Hp Hv].
  destruct x as [| | | [] m e]; try discriminate. now exists m, e.
Qed.

Lemma leb_zero_l (s : bool) (x : number) :
  non_negative x = true -> leb (S754_zero s) x = true.
Proof. destruct x as [[] | [] | | [] m e]; try discriminate; reflexivity. Qed.

Lemma leb_zero_r (s : bool) (x : number) :
  leb (S754_zero s) x = true -> non_negative x = true.
Proof. destruct x as [[] | [] | | [] m e]; try discriminate; reflexivity. Qed.

Lemma leb_non_negative (x y : number) :
  non_negative x = true -> leb x y = true -> non_negative y = true.
Proof.
  destruct x as [[] | [] | | [] mx ex]; try discriminate;
    destruct y as [[] | [] | | [] my ey]; try discriminate; reflexivity.
Qed.

Lemma leb_infinity_r (x : number) :
  non_negative x = true -> leb x (S754_infinity false) = true.
Proof. destruct x as [[] | [] | | [] m e]; try discriminate; reflexivity. Qed.

Lemma rounded_finite (m : positive) (e : Z) :
  e <= emax - prec -> rounded false (Zpos m) e = S754_finite false m e.
Proof. intros He. cbn [rounded]. now rewrite (proj2 (Z.leb_le _ _) He). Qed.

Lemma value_positive (m : positive) (e : Z) : (0 < inject_Z (Zpos m) * 2 ^ e)%Q.
Proof. apply Qmult_lt_0_compat; [reflexivity | apply pow2_Q_gt0]. Qed.

(** Division by a positive number is monotone. *)
Lemma div_mono (a a' b : number) :
  non_negative a = true -> valid a = true -> valid a' = true ->
  is_positive b = true -> leb a a' = true ->
  leb (div a b) (div a' b) = true.
Proof.
  intros Ha Hva Hva' Hb Hle.
  pose proof (leb_non_negative a a' Ha Hle) as Ha'.
  pose proof (div_non_negative a' b Ha' Hb) as Hq'.
  pose proof (div_non_negative a b Ha Hb) as Hq.
  destruct b as [| | | [] mb eb]; try discriminate.
  destruct a as [sa | [] | | [] ma ea]; try discriminate.
  - now apply leb_zero_l.
  - destruct a' as [[] | [] | | [] ma' ea']; try discriminate. reflexivity.
  - destruct a' as [[] | [] | | [] ma' ea']; try discriminate.
    + now apply leb_infinity_r.
    + pose proof (leb_value (S754_finite false ma ea) (S754_finite false ma' ea')
                    eq_refl eq_refl Hva Hva' Hle) as HQ.
      rewrite !to_Q_positive in HQ.
      destruct (div_rounds_to false ma ea false mb eb) as (m & g & up & Hr & ->).
      destruct (div_rounds_to false ma' ea' false mb eb) as (m' & g' & up' & Hr' & ->).
      cbn [xorb]. apply leb_carried; [apply Hr | apply Hr' |].
      apply (rounds_to_mono _ _ _ _ _ _ _ _ Hr Hr').
      unfold Qdiv. apply Qmult_le_compat_r; [exact HQ |].
      apply Qinv_le_0_compat, Qlt_le_weak, value_positive.
Qed.

(** Multiplication of non-negative numbers is monotone in both factors. *)
Lemma mul_mono (a a' b b' : number) :
  amount a = true -> amount a' = true -> leb a a' = true ->
  non_negative b = true -> valid b = true -> valid b' = true -> leb b b' = true ->
  leb (mul a b) (mul a' b') = true.
Proof.
  intros Ha Ha' Hle Hb Hvb Hvb' Hleb.
  destruct (amount_inv a Ha) as (ma & ea & -> & Hva).
  destruct (amount_inv a' Ha') as (ma' & ea' & -> & Hva').
  pose proof (leb_non_negative b b' Hb Hleb) as Hb'.
  pose proof (mul_non_negative (S754_finite false ma ea) b eq_refl Hb) as Hp.
  pose proof (mul_non_negative (S754_finite false ma' ea') b' eq_refl Hb') as Hp'.
  pose proof (leb_value (S754_finite false ma ea) (S754_finite false ma' ea')
                eq_refl eq_refl Hva Hva' Hle) as HQa.
  rewrite !to_Q_positive in HQa.
  destruct b as [sb | [] | | [] mb eb]; try discriminate.
  - now apply leb_zero_l.
  - destruct b' as [[] | [] | | [] mb' eb']; try discriminate. reflexivity.
  - destruct b' as [[] | [] | | [] mb' eb']; try discriminate.
    + now apply leb_infinity_r.
    + pose proof (leb_value (S754_finite false mb eb) (S754_finite false mb' eb')
                    eq_refl eq_refl Hvb Hvb' Hleb) as HQb.
      rewrite !to_Q_positive in HQb.
      destruct (mul_rounds_to false ma ea false mb eb Hva Hvb) as (m & g & up & Hr & ->).
      destruct (mul_rounds_to false ma' ea' false mb' eb' Hva' Hvb')
        as (m' & g' & up' & Hr' & ->).
      cbn [xorb]. apply leb_carried; [apply Hr | apply Hr' |].
      apply (rounds_to_mono _ _ _ _ _ _ _ _ Hr Hr').
      apply Qmult_le_compat_nonneg; (split; [apply Qlt_le_weak, value_positive |]);
        assumption.
Qed.

Lemma valid_1200 : valid (of_Z 1200) = true.
Proof. reflexivity. Qed.

Section Order.
Context {E : Engine}.

(** X7: the interest-only payment never decreases when the principal or
    the rate increases (JavaScript's [<=] on positive principals and
    non-negative rates). *)
Theorem interest_only_monotone (p p' r r' : number) :
  amount p = true -> amount p' = true -> leb p p' = true ->
  non_negative r = true -> valid r = true -> valid r' = true -> leb r r' = true ->
  leb (interestOnlyPaymentValue p r) (interestOnlyPaymentValue p' r') = true.
Proof.
  intros Hp Hp' Hle Hr Hvr Hvr' Hler.
  unfold interestOnlyPaymentValue. cbn [ndiv nmul lit binary64].
  apply mul_mono; try assumption.
  - apply div_non_negative; [exact Hr | reflexivity].
  - apply div_valid; [exact Hvr | exact valid_1200].
  - apply div_valid; [exact Hvr' | exact valid_1200].
  - apply div_mono; try assumption; reflexivity.
Qed.

(** X8: the conventional payment never decreases when the principal
    increases, the rate and the term being the same and the divisor a
    positive number. *)
Theorem conventional_monotone (p p' r n : number) :
  amount p = true -> amount p' = true -> leb p p' = true ->
  non_negative r = true -> valid r = true ->
  is_positive (conventionalDenominator r n) = true ->
  leb (conventionalPaymentValue p r n) (conventionalPaymentValue p' r n) = true.
Proof.
  intros Hp Hp' Hle Hr Hvr HD.
  unfold conventionalPaymentValue, conventionalDenominator in *.
  cbn [ndiv nmul nsub nadd npow lit binary64] in *.
  destruct (amount_inv p Hp) as (mp & ep & -> & Hvp).
  destruct (amount_inv p' Hp') as (mp' & ep' & -> & Hvp').
  assert (Hi : non_negative (div r (of_Z 1200)) = true)
    by (apply div_non_negative; [exact Hr | reflexivity]).
  assert (Hvi : valid (div r (of_Z 1200)) = true)
    by (apply div_valid; [exact Hvr | exact valid_1200]).
  apply div_mono; try assumption.
  - now apply mul_non_negative.
  - now apply mul_valid.
  - now apply mul_valid.
  - apply mul_mono; try assumption.
    destruct (div r (of_Z 1200)) as [[] | [] | | [] m e]; try discriminate;
      try reflexivity.
    unfold leb, SFleb, SFcompare. rewrite Z.compare_refl.
    change (Pos.compare_cont Eq m m) with (Pos.compare m m).
    now rewrite Pos.compare_refl.
Qed.

(** X9: the conventional payment is never below the interest-only
    payment of the same loan, when its divisor is above zero and at
    most 1. *)
Theorem conventional_covers_interest (p r n : number) :
  amount p = true -> non_negative r = true -> valid r = true ->
  is_positive (conventionalDenominator r n) = true ->
  (to_Q (conventionalDenominator r n) <= 1)%Q ->
  leb (interestOnlyPaymentValue p r) (conventionalPaymentValue p r n) = true.
Proof.
  intros Hp Hr Hvr HD HD1.
  unfold conventionalPaymentValue, conventionalDenominator, interestOnlyPaymentValue in *.
  cbn [ndiv nmul nsub nadd npow lit binary64] in *.
  destruct (amount_inv p Hp) as (mp & ep & -> & Hvp).
  assert (Hi : non_negative (div r (of_Z 1200)) = true)
    by (apply div_non_negative; [exact Hr | reflexivity]).
  assert (Hvi : valid (div r (of_Z 1200)) = true)
    by (apply div_valid; [exact Hvr | exact valid_1200]).
  pose proof (mul_non_negative (S754_finite false mp ep) _ eq_refl Hi) as HN.
  pose proof (mul_valid _ _ Hvp Hvi) as HvN.
  set (N := mul (S754_finite false mp ep) (div r (of_Z 1200))) in *.
  set (D := sub (of_Z 1) _) in *.
  destruct D as [| | | [] mD eD]; try discriminate.
  destruct N as [sN | [] | | [] mN eN]; try discriminate.
  - destruct sN; reflexivity.
  - reflexivity.
  - destruct (valid_canonical _ _ _ HvN) as [HcN HeN].
    destruct (div_rounds_to false mN eN false mD eD) as (m & g & up & Hr' & ->).
    cbn [xorb]. rewrite <- (rounded_finite mN eN HeN).
    unfold carried. apply leb_rounded; [exact HcN | apply carry_canonical, Hr' |].
    rewrite carry_value.
    apply (rounds_to_mono _ _ _ _ false _ _ _ (rounds_to_exact _ _ HcN) Hr').
    rewrite to_Q_positive in HD1.
    pose proof (value_positive mD eD) as HDpos.
    pose proof (value_positive mN eN) as HNpos.
    apply Qle_shift_div_l; [exact HDpos |].
    set (vN := (inject_Z (Zpos mN) * 2 ^ eN)%Q) in *.
    set (vD := (inject_Z (Zpos mD) * 2 ^ eD)%Q) in *.
    rewrite <- (Qmult_1_r vN) at 2.
    apply Qmult_le_l; assumption.
Qed.

(** X10: at 1200 percent a year the monthly rate is exactly 1 and the
    interest-only payment is the principal itself, without any rounding;
    this fixes the unit of the rate, percent a year. *)
Theorem percent_unit (p : number) :
  valid p = true -> interestOnlyPaymentValue p (of_Z 1200) = p.
Proof.
  intros Hv. unfold interestOnlyPaymentValue. cbn [ndiv nmul lit binary64].
  assert (H1 : div (of_Z 1200) (of_Z 1200) = S754_finite false 4503599627370496 (-52))
    by (vm_compute; reflexivity).
  rewrite H1.
  destruct p as [s | s | | s m e]; try (destruct s; reflexivity); try reflexivity.
  destruct (valid_canonical s m e Hv) as [Hc He].
  destruct (mul_rounds_to s m e false 4503599627370496 (-52) Hv eq_refl)
    as (m' & g & up & Hr & ->).
  rewrite xorb_false_r.
  assert (HX : (inject_Z (Zpos m) * 2 ^ e
                * (inject_Z 4503599627370496 * 2 ^ (-52))
                == inject_Z (Zpos m) * 2 ^ e)%Q).
  { assert (H2 : (inject_Z 4503599627370496 * 2 ^ (-52) == 1)%Q) by reflexivity.
    rewrite H2. ring. }
  apply (rounds_to_ext _ _ _ _ _ HX) in Hr.
  pose proof (rounds_to_unique _ _ _ _ _ _ _ (rounds_to_exact _ _ Hc) Hr) as Hval.
  change (round_up (Zpos m) false) with (Zpos m) in Hval.
  rewrite <- (carry_value (round_up m' up) g) in Hval.
  destruct (canonical_unique _ _ _ _ Hc
              (carry_canonical _ _ up (proj1 Hr)) ltac:(lia) Hval) as [Hm Hg].
  unfold carried. rewrite <- Hm, <- Hg.
  cbn [rounded]. now rewrite (proj2 (Z.leb_le _ _) He).
Qed.

End Order.

Lemma interest_only_monotone_witness :
  leb (interestOnlyPaymentValue (A := Sample.arith) (of_Z 30000) (of_Z 5))
      (interestOnlyPaymentValue (A := Sample.arith) (of_Z 40000) (of_Z 6)) = true.
Proof.
  apply (interest_only_monotone (E := Sample.engine)); vm_compute; reflexivity.
Defined.

Lemma conventional_monotone_witness :
  leb (conventionalPaymentValue (A := Sample.arith) (of_Z 1200) (of_Z 12) (of_Z 2))
      (conventionalPaymentValue (A := Sample.arith) (of_Z 1500) (of_Z 12) (of_Z 2)) = true.
Proof.
  apply (conventional_monotone (E := Sample.engine)); vm_compute; reflexivity.
Defined.

Lemma conventional_covers_interest_witness :
  leb (interestOnlyPaymentValue (A := Sample.arith) (of_Z 1200) (of_Z 12))
      (conventionalPaymentValue (A := Sample.arith) (of_Z 1200) (of_Z 12) (of_Z 2)) = true.
Proof.
  apply (conventional_covers_interest (E := Sample.engine));
    try (vm_compute; reflexivity).
  apply Qle_bool_iff. vm_compute. reflexivity.
Defined.

Lemma percent_unit_witness :
  interestOnlyPaymentValue (A := Sample.arith) (of_Z 30000) (of_Z 1200) = of_Z 30000.
Proof.
  apply (percent_unit (E := Sample.engine)). reflexivity.
Defined.

(** ** Rates absorbed by 1 + i *)

(** *** Sums *)

Lemma shl_align_spec (mx : positive) (ex ex' : Z) :
  snd (shl_align mx ex ex') = Z.min ex ex' /\
  Zpos (fst (shl_align mx ex ex')) = Zpos mx * 2 ^ (ex - Z.min ex ex').
Proof.
  unfold shl_align. destruct (ex' - ex) as [| d | d] eqn:Hd; cbn [fst snd].
  - replace (Z.min ex ex') with ex by lia. rewrite Z.sub_diag. lia.
  - replace (Z.min ex ex') with ex by lia. rewrite Z.sub_diag. lia.
  - replace (Z.min ex ex') with ex' by lia.
    change (Pos.iter xO mx d) with (shift_pos d mx).
    rewrite shift_pos_correct. change (Zpower_pos 2 d) with (2 ^ Zpos d).
    replace (ex - ex') with (Zpos d) by lia. lia.
Qed.

Lemma Zdigits2_shift (m : positive) (d : Z) :
  0 <= d -> Zdigits2 (Zpos m * 2 ^ d) = Zdigits2 (Zpos m) + d.
Proof.
  intros Hd. pose proof (digits2_pos_bounds m) as [Hlo Hhi].
  cbn [Zdigits2]. set (dm := Zpos (digits2_pos m)) in *.
  assert (Hdm : 1 <= dm) by (subst dm; lia).
  assert (Hp : 0 < 2 ^ d) by (apply Z.pow_pos_nonneg; lia).
  apply Z.le_antisymm.
  - apply Zdigits2_le; [lia |]. rewrite Z.pow_add_r by lia. nia.
  - replace (dm + d) with (dm - 1 + d + 1) by lia.
    apply Zdigits2_lower; [lia |]. rewrite Z.pow_add_r by lia. nia.
Qed.

(** [binary_round] rounds the value of its argument to nearest, ties to
    even. *)
Lemma binary_round_rounds_to (sx : bool) (mx : positive) (ex : Z) :
  exists m g up,
    rounds_to (inject_Z (Zpos mx) * 2 ^ ex) m g up /\
    binary_round prec emax sx mx ex = carried sx (round_up m up) g.
Proof.
  unfold binary_round.
  set (f := fexp prec emax (Zpos (digits2_pos mx) + ex)).
  destruct (shl_align_spec mx ex f) as [He Hm].
  destruct (shl_align mx ex f) as [mz ez]. cbn [fst snd] in He, Hm.
  assert (Hshift : ez <= fexp prec emax (Zdigits2 (Zpos mz) + ez)).
  { rewrite Hm, Zdigits2_shift by lia. cbn [Zdigits2].
    replace (Zpos (digits2_pos mx) + (ex - Z.min ex f) + ez)
      with (Zpos (digits2_pos mx) + ex) by lia.
    fold f. lia. }
  destruct (binary_round_aux_rounds_to sx (Zpos mz) ez loc_Exact (inject_Z (Zpos mz))
              ltac:(lia) (located_exact (Zpos mz) ltac:(lia)) Hshift)
    as (m & g & up & Hr & Heq).
  exists m, g, up. split; [| exact Heq].
  eapply rounds_to_ext; [| exact Hr].
  rewrite Hm, shift_value by lia. now replace (ez + (ex - Z.min ex f)) with ex by lia.
Qed.

(** The sum of two positive numbers is their exact sum rounded to
    nearest, ties to even. *)
Lemma add_rounds_to (ma : positive) (ea : Z) (mb : positive) (eb : Z) :
  exists m g up,
    rounds_to (inject_Z (Zpos ma) * 2 ^ ea + inject_Z (Zpos mb) * 2 ^ eb) m g up /\
    add (S754_finite false ma ea) (S754_finite false mb eb)
    = carried false (round_up m up) g.
Proof.
  unfold add. cbn [SFadd cond_Zopp].
  set (ez := Z.min ea eb).
  destruct (shl_align_spec ma ea ez) as [_ Ha].
  destruct (shl_align_spec mb eb ez) as [_ Hb].
  replace (Z.min ea ez) with ez in Ha by lia.
  replace (Z.min eb ez) with ez in Hb by lia.
  set (ma' := fst (shl_align ma ea ez)) in *.
  set (mb' := fst (shl_align mb eb ez)) in *.
  change (Zpos ma' + Zpos mb') with (Zpos (ma' + mb')).
  cbn [binary_normalize].
  destruct (binary_round_rounds_to false (ma' + mb') ez) as (m & g & up & Hr & Heq).
  exists m, g, up. split; [| exact Heq].
  eapply rounds_to_ext; [| exact Hr].
  rewrite Pos2Z.inj_add, inject_Z_plus, Ha, Hb, Qmult_plus_distr_l.
  rewrite !shift_value by lia.
  now replace (ez + (ea - ez)) with ea by lia; replace (ez + (eb - ez)) with eb by lia.
Qed.

(** A positive number of at most 2^-53 is absorbed by [1 +]. *)
Lemma add_one_absorbs (i : number) :
  is_positive i = true -> (to_Q i <= 1 # 9007199254740992)%Q ->
  add (of_Z 1) i = of_Z 1.
Proof.
  destruct i as [| | | [] mi ei]; try discriminate. intros _ Hi.
  rewrite to_Q_positive in Hi.
  change (of_Z 1) with (S754_finite false 4503599627370496 (-52)).
  destruct (add_rounds_to 4503599627370496 (-52) mi ei) as (m & g & up & Hr & ->).
  pose proof (value_positive mi ei) as Hpos.
  set (v := (inject_Z (Zpos mi) * 2 ^ ei)%Q) in *.
  assert (Hc : canonical 4503599627370496 (-52)).
  { split; [unfold prec; lia |]. split; [unfold emin, emax, prec; lia |]. left.
    unfold prec. lia. }
  assert (H1 : (inject_Z 4503599627370496 * 2 ^ (-52) == 1)%Q) by reflexivity.
  assert (HP : (2 ^ (-52) == 1 # 4503599627370496)%Q) by reflexivity.
  assert (Hone : rounds_to (inject_Z 4503599627370496 * 2 ^ (-52) + v)
                           4503599627370496 (-52) false).
  { split; [exact Hc |]. unfold nearest. rewrite H1, HP. clearbody v.
    split; [lra |]. split; [lra |]. intros _. reflexivity. }
  pose proof (rounds_to_unique _ _ _ _ _ _ _ Hone Hr) as Hval.
  change (round_up 4503599627370496 false) with 4503599627370496 in Hval.
  rewrite <- (carry_value (round_up m up) g) in Hval.
  destruct (canonical_unique _ _ _ _ Hc
              (carry_canonical _ _ up (proj1 Hr)) ltac:(lia) Hval) as [Hm Hg].
  unfold carried. rewrite <- Hm, <- Hg. reflexivity.
Qed.

(** The monthly rate of a rate of at most 1200 * 2^-53 percent is zero
    or a positive number of at most 2^-53. *)
Lemma absorbed_monthly_rate (r : number) :
  is_positive r = true -> (to_Q r <= absorbed_rate)%Q ->
  is_zero (div r (of_Z 1200)) = true \/
  (is_positive (div r (of_Z 1200)) = true /\
   (to_Q (div r (of_Z 1200)) <= 1 # 9007199254740992)%Q).
Proof.
  destruct r as [| | | [] mr er]; try discriminate. intros _ Hr.
  rewrite to_Q_positive in Hr.
  change (of_Z 1200) with (S754_finite false 5277655813324800 (-42)).
  destruct (div_rounds_to false mr er false 5277655813324800 (-42))
    as (m & g & up & Hr' & ->).
  cbn [xorb].
  assert (Hc : canonical 4503599627370496 (-105)).
  { split; [unfold prec; lia |]. split; [unfold emin, emax, prec; lia |]. left.
    unfold prec. lia. }
  assert (Hv : (inject_Z 4503599627370496 * 2 ^ (-105) == 1 # 9007199254740992)%Q)
    by reflexivity.
  assert (H1200 : (inject_Z 5277655813324800 * 2 ^ (-42) == 1200)%Q) by reflexivity.
  assert (HX : (inject_Z (Zpos mr) * 2 ^ er / (inject_Z 5277655813324800 * 2 ^ (-42))
                <= inject_Z 4503599627370496 * 2 ^ (-105))%Q).
  { rewrite H1200, Hv. set (v := (inject_Z (Zpos mr) * 2 ^ er)%Q) in *. clearbody v.
    apply Qle_shift_div_r; [reflexivity |].
    unfold absorbed_rate in Hr. lra. }
  pose proof (rounds_to_mono _ _ _ _ _ _ _ _ Hr' (rounds_to_exact _ _ Hc) HX) as Hle.
  change (round_up 4503599627370496 false) with 4503599627370496 in Hle.
  rewrite <- (carry_value (round_up m up) g) in Hle.
  pose proof (carry_canonical m g up (proj1 Hr')) as Hcc.
  unfold carried.
  set (c := fst (carry (round_up m up) g)) in *.
  set (h := snd (carry (round_up m up) g)) in *.
  destruct c as [| pc | pc]; [left; reflexivity | right | destruct Hcc as ([? _] & _); lia].
  destruct (value_le_exponent _ _ _ _ Hcc Hc ltac:(lia) Hle) as [Hlt | [Heq _]];
    (rewrite rounded_finite by (unfold emax, prec; lia));
    (split; [reflexivity |]); rewrite to_Q_positive, <- Hv; exact Hle.
Qed.

Lemma div_by_zero (N : number) :
  non_negative N = true ->
  div N (S754_zero false) = if is_zero N then S754_nan else S754_infinity false.
Proof. destruct N as [[] | [] | | [] m e]; try discriminate; reflexivity. Qed.

Section Absorption.
Context {E : Engine}.

Lemma absorbed_rate_payment (p r n : number) :
  is_positive p = true -> is_positive r = true -> (to_Q r <= absorbed_rate)%Q ->
  Math_pow (of_Z 1) n = of_Z 1 ->
  conventionalDenominator r n = S754_zero false /\
  conventionalPaymentValue p r n
  = if is_zero (interestOnlyPaymentValue p r) then S754_nan else S754_infinity false.
Proof.
  intros Hp Hr Hsmall Hpow.
  unfold conventionalDenominator, conventionalPaymentValue, interestOnlyPaymentValue.
  cbn [ndiv nmul nsub nadd npow lit binary64].
  assert (Hi : non_negative (div r (of_Z 1200)) = true).
  { apply div_non_negative; [| reflexivity].
    destruct r as [| | | [] mr er]; try discriminate; reflexivity. }
  assert (Hone : add (of_Z 1) (div r (of_Z 1200)) = of_Z 1).
  { destruct (absorbed_monthly_rate r Hr Hsmall) as [Hz | [Hpos Hle]];
      [now apply one_plus_zero | now apply add_one_absorbs]. }
  rewrite Hone, one_div_one, Hpow, one_minus_one.
  split; [reflexivity |].
  apply div_by_zero. now apply mul_non_negative.
Qed.

(** X11: for a positive rate of at most 1200 * 2^-53 percent a year, 1
    plus the monthly rate rounds to 1: when [Math.pow(1, months)] is 1
    the divisor is +0 and the call returns Infinity, or NaN when
    principal times monthly rate underflows to zero. *)
Theorem absorbed_rate_text (l : ConventionalLoan) (w : world) :
  is_positive (principle l) = true ->
  is_positive (interest l) = true ->
  (to_Q (interest l) <= absorbed_rate)%Q ->
  Math_pow (of_Z 1) (months l) = of_Z 1 ->
  add (of_Z 1) (div (interest l) (of_Z 1200)) = of_Z 1 /\
  conventionalDenominator (interest l) (months l) = S754_zero false /\
  result (calculateConventionalLoanPayment l) w
  = Normal (if is_zero (interestOnlyPaymentValue (principle l) (interest l))
            then "The conventional loan payment is NaN"
            else "The conventional loan payment is Infinity").
Proof.
  intros Hp Hr Hsmall Hpow.
  destruct (absorbed_rate_payment (principle l) (interest l) (months l)
              Hp Hr Hsmall Hpow) as [HD Hpay].
  split; [| split; [exact HD |]].
  - destruct (absorbed_monthly_rate _ Hr Hsmall) as [Hz | [Hpos Hle]];
      [now apply one_plus_zero | now apply add_one_absorbs].
  - unfold result.
    destruct (is_zero (interestOnlyPaymentValue (principle l) (interest l))).
    + rewrite (conventional_text_normal l w "NaN"); [reflexivity |].
      rewrite Hpay. reflexivity.
    + rewrite (conventional_text_normal l w "Infinity"); [reflexivity |].
      rewrite Hpay. reflexivity.
Qed.

End Absorption.

Lemma absorbed_rate_text_witness :
  result (calculateConventionalLoanPayment (E := Sample.engine)
            {| loan := {| principle := of_Z 30000;
                          interest := S754_finite false 4503599627370496 (-112) |};
               months := of_Z 12 |}) empty_world
  = Normal "The conventional loan payment is Infinity".
Proof.
  apply (absorbed_rate_text (E := Sample.engine)
           {| loan := {| principle := of_Z 30000;
                         interest := S754_finite false 4503599627370496 (-112) |};
              months := of_Z 12 |} empty_world).
  - reflexivity.
  - reflexivity.
  - apply Qle_bool_iff. vm_compute. reflexivity.
  - vm_compute. reflexivity.
Defined.
